(** * A fixed-pool, first-fit allocator with block splitting

    Shallow embedding of [custom_memory_allocator.c]: [my_allocator_init],
    [my_malloc] and [my_free] as functions on the three globals of the file,
    with the invariants of the pool and of the free list.

    The pool is a store of block headers indexed by the address they start
    at: a header written at an address is read back there, and headers at
    other addresses stay as they were.  This is what the bytes of
    [memory_pool] do as long as two headers in use do not overlap, which the
    invariant below guarantees for the blocks of the pool (each is at least
    one header and one alignment unit long).  The user data between headers
    is not modelled.  Addresses and sizes are integers; the arithmetic of
    [size_t] and of pointers wraps around. *)

From Stdlib Require Import ZArith Lia List.
From stdpp Require Import gmap list strings.

Local Open Scope Z_scope.

(** ** Block headers and the pool *)

(** [struct BlockHeader].  [is_free] is the C [int] that the code tests as a
    truth value and sets to 0 or 1; [next_free] is an address, [NULL] when
    there is none. *)
Record BlockHeader := mkBlockHeader {
  size : Z;
  is_free : bool;
  next_free : Z
}.

Definition NULL : Z := 0.

(** The bytes of a static array start out as zeros. *)
Definition zero_header : BlockHeader := mkBlockHeader 0 false NULL.

(** The three globals of the file.  [pool] holds the headers that live in
    [memory_pool], keyed by the address they start at. *)
Record allocator := mkAllocator {
  pool : gmap Z BlockHeader;
  free_list_head : Z;
  allocator_initialized : bool
}.

(** State of the program before any call: static storage. *)
Definition boot : allocator := mkAllocator ∅ NULL false.

Definition load (m : gmap Z BlockHeader) (a : Z) : BlockHeader :=
  default zero_header (m !! a).

(** [a->size = v], [a->is_free = v], [a->next_free = v]. *)
Definition set_size (m : gmap Z BlockHeader) (a v : Z) : gmap Z BlockHeader :=
  <[a := mkBlockHeader v (is_free (load m a)) (next_free (load m a))]> m.

Definition set_is_free (m : gmap Z BlockHeader) (a : Z) (v : bool)
  : gmap Z BlockHeader :=
  <[a := mkBlockHeader (size (load m a)) v (next_free (load m a))]> m.

Definition set_next_free (m : gmap Z BlockHeader) (a v : Z)
  : gmap Z BlockHeader :=
  <[a := mkBlockHeader (size (load m a)) (is_free (load m a)) v]> m.

(** A call of the public interface that has returned; [Allocate n p] is
    [my_malloc(n)] returning [p]. *)
Inductive call :=
| Init
| Allocate (n : Z) (p : Z)
| Deallocate (p : Z).

(** Every pointer [my_malloc] has returned in a run, latest call first. *)
Definition handles (tr : list call) : list Z :=
  flat_map (fun c => match c with Allocate _ p => [p] | _ => [] end) tr.

(** [path nxt a l b]: starting at [a] and moving with [nxt], one visits the
    addresses [l] in this order and then stands on [b]. *)
Inductive path (nxt : Z -> Z) : Z -> list Z -> Z -> Prop :=
| path_nil a : path nxt a [] a
| path_cons a l b : path nxt (nxt a) l b -> path nxt a (a :: l) b.

(** The two ways the code moves through the pool: [current->next_free] along
    the free list, and [current + current->size] from block to block. *)
Definition link (m : gmap Z BlockHeader) (a : Z) : Z := next_free (load m a).

Definition block_after (m : gmap Z BlockHeader) (a : Z) : Z :=
  a + size (load m a).

(** Bytes covered by the blocks [bs]. *)
Definition total_size (m : gmap Z BlockHeader) (bs : list Z) : Z :=
  foldr (fun a acc => size (load m a) + acc) 0 bs.

(** [linked m a b]: [b] is met when following [next_free] from [a] before
    [NULL] is. *)
Inductive linked (m : gmap Z BlockHeader) : Z -> Z -> Prop :=
| linked_here a : a <> NULL -> linked m a a
| linked_next a b : a <> NULL -> linked m (link m a) b -> linked m a b.

Section Allocator.

(** What the platform and the build fix: the width of [size_t] and of
    addresses, [sizeof(void* )], [sizeof(BlockHeader)], the capacity of the
    pool (the code reads the macro [POOL_SIZE]) and the address of
    [memory_pool]. *)
Variable size_bits : Z.
Variable ALIGNMENT : Z.
Variable sizeof_BlockHeader : Z.
Variable POOL_SIZE : Z.
Variable memory_pool : Z.

(** Unsigned arithmetic on [size_t] and on addresses. *)
Definition wrap (x : Z) : Z := x mod 2 ^ size_bits.

(** [#define ALIGN(size) (((size) + (ALIGNMENT - 1)) & ~(ALIGNMENT - 1))] *)
Definition ALIGN (x : Z) : Z :=
  Z.land (wrap (x + wrap (ALIGNMENT - 1))) (wrap (Z.lnot (wrap (ALIGNMENT - 1)))).

(** The value of [total_needed_size] in [my_malloc] when the search starts. *)
Definition total_needed_size (n : Z) : Z :=
  let t := ALIGN (wrap (n + sizeof_BlockHeader)) in
  if t <? wrap (sizeof_BlockHeader + ALIGNMENT)
  then wrap (sizeof_BlockHeader + ALIGNMENT)
  else t.

Definition pool_end : Z := memory_pool + POOL_SIZE.

Definition my_allocator_init (s : allocator) : allocator :=
  if allocator_initialized s then s
  else
    let m := set_size (pool s) memory_pool POOL_SIZE in
    let m := set_is_free m memory_pool true in
    let m := set_next_free m memory_pool NULL in
    mkAllocator m memory_pool true.

(** The branch of [my_malloc] that splits [current]. *)
Definition split_block (s : allocator) (needed current prev_free : Z)
  : allocator :=
  let m := pool s in
  let new_free_block := wrap (current + needed) in
  let m := set_size m new_free_block (wrap (size (load m current) - needed)) in
  let m := set_is_free m new_free_block true in
  let m := set_next_free m new_free_block (next_free (load m current)) in
  let m := set_size m current needed in
  let m := set_is_free m current false in
  let m := set_next_free m current NULL in
  if prev_free =? NULL
  then mkAllocator m new_free_block (allocator_initialized s)
  else mkAllocator (set_next_free m prev_free new_free_block)
         (free_list_head s) (allocator_initialized s).

(** The branch of [my_malloc] that hands out [current] whole. *)
Definition use_entire_block (s : allocator) (current prev_free : Z)
  : allocator :=
  let m := set_is_free (pool s) current false in
  if prev_free =? NULL
  then mkAllocator (set_next_free m current NULL)
         (next_free (load m current)) (allocator_initialized s)
  else mkAllocator
         (set_next_free
            (set_next_free m prev_free (next_free (load m current)))
            current NULL)
         (free_list_head s) (allocator_initialized s).

(** [fits needed h]: the test [current->is_free && current->size >= needed]. *)
Definition fits (needed : Z) (h : BlockHeader) : bool :=
  is_free h && (needed <=? size h).

(** The [while (current != NULL)] loop of [my_malloc]; one unit of fuel per
    iteration, [None] when the fuel runs out. *)
Fixpoint first_fit (fuel : nat) (s : allocator) (needed current prev_free : Z)
  : option (allocator * Z) :=
  match fuel with
  | O => None
  | S fuel' =>
      if current =? NULL then Some (s, NULL)
      else
        let h := load (pool s) current in
        if fits needed h then
          if wrap (needed + sizeof_BlockHeader + ALIGNMENT) <=? size h
          then Some (split_block s needed current prev_free,
                     wrap (current + sizeof_BlockHeader))
          else Some (use_entire_block s current prev_free,
                     wrap (current + sizeof_BlockHeader))
        else first_fit fuel' s needed (next_free h) current
  end.

Definition my_malloc (fuel : nat) (s : allocator) (n : Z)
  : option (allocator * Z) :=
  let s := my_allocator_init s in
  if n =? 0 then Some (s, NULL)
  else first_fit fuel s (total_needed_size n) (free_list_head s) NULL.

Definition my_free (s : allocator) (ptr : Z) : allocator :=
  if ptr =? NULL then s
  else if negb (allocator_initialized s) then s
  else
    let block_to_free := wrap (ptr - sizeof_BlockHeader) in
    if (block_to_free <? memory_pool) || (pool_end <=? block_to_free) then s
    else if is_free (load (pool s) block_to_free) then s
    else
      let m := set_is_free (pool s) block_to_free true in
      let m := set_next_free m block_to_free (free_list_head s) in
      mkAllocator m block_to_free (allocator_initialized s).

(** ** Invariants *)

(** Assumptions on the platform: [sizeof(void* )] is a power of two below the
    range of [size_t], a header is a whole number of alignment units, and the
    array [memory_pool] is a real object: it does not start at [NULL], its end
    is an address, and it has room for one block of the smallest size.  The
    last line keeps the sum in the split test of [my_malloc] within [size_t]
    for every request that a block of the pool can hold. *)
Record abi_ok : Prop := {
  abi_align : exists k, 0 <= k < size_bits /\ ALIGNMENT = 2 ^ k;
  abi_header :
    0 < sizeof_BlockHeader /\ sizeof_BlockHeader mod ALIGNMENT = 0;
  abi_pool_base : 0 < memory_pool;
  abi_pool_fits : memory_pool + POOL_SIZE < 2 ^ size_bits;
  abi_pool_min : sizeof_BlockHeader + ALIGNMENT <= POOL_SIZE;
  abi_pool_small :
    POOL_SIZE + sizeof_BlockHeader + ALIGNMENT < 2 ^ size_bits
}.

(** [bs] are the blocks of the pool in address order: the walk from the first
    byte by [size] visits them and lands on the end of the pool. *)
Definition blocks_of (s : allocator) (bs : list Z) : Prop :=
  path (block_after (pool s)) memory_pool bs pool_end.

(** [fl] is the free list in link order: a chain from the head to [NULL]. *)
Definition free_list_of (s : allocator) (fl : list Z) : Prop :=
  path (link (pool s)) (free_list_head s) fl NULL /\ NULL ∉ fl.

(** [p] is what [my_malloc] returns for the block at [a]. *)
Definition handle_of (a : Z) : Z := a + sizeof_BlockHeader.

Record pool_inv (tr : list call) (s : allocator) (bs fl : list Z) : Prop := {
  inv_init : allocator_initialized s = true;
  inv_blocks : blocks_of s bs;
  inv_min : forall a, a ∈ bs ->
    sizeof_BlockHeader + ALIGNMENT <= size (load (pool s) a);
  inv_aligned : forall a, a ∈ bs -> (a - memory_pool) mod ALIGNMENT = 0;
  inv_free_list : free_list_of s fl;
  inv_nodup : NoDup fl;
  inv_member : forall a, a ∈ fl <-> a ∈ bs /\ is_free (load (pool s) a) = true;
  inv_handles : forall p, p ∈ handles tr ->
    p = NULL \/ exists a, a ∈ bs /\ p = handle_of a
}.

(** The block [my_free] derives from [p] fails the bounds test. *)
Definition out_of_pool (p : Z) : Prop :=
  wrap (p - sizeof_BlockHeader) < memory_pool
  \/ pool_end <= wrap (p - sizeof_BlockHeader).

(** [run tr s]: the calls [tr] (latest first), made one after the other on the
    initialized pool, have all returned and left the allocator in [s].
    [my_free] is given [NULL], a pointer that fails its bounds test, or a
    pointer that [my_malloc] returned earlier in the run (freed since or
    not). *)
Inductive run : list call -> allocator -> Prop :=
| run_start : run [] (my_allocator_init boot)
| run_init tr s :
    run tr s -> run (Init :: tr) (my_allocator_init s)
| run_allocate tr s fuel n s' p :
    run tr s -> my_malloc fuel s n = Some (s', p) ->
    run (Allocate n p :: tr) s'
| run_deallocate tr s p :
    run tr s -> p = NULL \/ out_of_pool p \/ p ∈ handles tr ->
    run (Deallocate p :: tr) (my_free s p).

(** ** Arithmetic of sizes *)

Hypothesis ABI : abi_ok.

Lemma pow2_bits_pos : 0 < 2 ^ size_bits.
Proof.
  destruct ABI as [[k [Hk _]] _ _ _ _ _]. apply Z.pow_pos_nonneg; lia.
Qed.

Lemma wrap_small x : 0 <= x < 2 ^ size_bits -> wrap x = x.
Proof. intros H. unfold wrap. apply Z.mod_small. exact H. Qed.

Lemma wrap_range x : 0 <= wrap x < 2 ^ size_bits.
Proof. unfold wrap. apply Z.mod_pos_bound. apply pow2_bits_pos. Qed.

Lemma alignment_range : 0 < ALIGNMENT < 2 ^ size_bits.
Proof.
  destruct ABI as [[k [Hk ->]] _ _ _ _ _]. split.
  - apply Z.pow_pos_nonneg; lia.
  - apply Z.pow_lt_mono_r; lia.
Qed.

Lemma min_block_range :
  0 < sizeof_BlockHeader + ALIGNMENT < 2 ^ size_bits.
Proof.
  pose proof alignment_range.
  destruct ABI as [_ [Hh _] Hb Hf Hm _]. lia.
Qed.

(** The mask [~(ALIGNMENT - 1)] clears the low bits: [ALIGN] rounds its
    argument, plus [ALIGNMENT - 1] in [size_t], down to a multiple. *)
Lemma land_mask y k :
  0 <= k < size_bits -> 0 <= y < 2 ^ size_bits ->
  Z.land y (wrap (Z.lnot (wrap (2 ^ k - 1)))) = y / 2 ^ k * 2 ^ k.
Proof.
  intros Hk Hy.
  assert (Hm : wrap (2 ^ k - 1) = Z.ones k).
  { rewrite Z.ones_equiv, <- Z.sub_1_r. apply wrap_small.
    assert (0 < 2 ^ k) by (apply Z.pow_pos_nonneg; lia).
    assert (2 ^ k < 2 ^ size_bits) by (apply Z.pow_lt_mono_r; lia). lia. }
  rewrite Hm, <- Z.shiftl_mul_pow2, <- Z.shiftr_div_pow2 by lia.
  rewrite <- Z.ldiff_ones_r by lia.
  apply Z.bits_inj'. intros i Hi.
  rewrite Z.land_spec, Z.ldiff_spec. unfold wrap.
  destruct (Z.lt_ge_cases i size_bits) as [Hlt | Hge].
  - rewrite Z.mod_pow2_bits_low by lia. rewrite Z.lnot_spec by lia. reflexivity.
  - rewrite Z.mod_pow2_bits_high by lia.
    rewrite Z.ones_spec_high by lia.
    assert (Z.testbit y i = false) as ->; [|reflexivity].
    destruct (Z.eq_dec y 0) as [-> | Hy0]; [apply Z.bits_0|].
    apply Z.bits_above_log2; [lia|].
    apply Z.log2_lt_pow2; [lia|].
    apply Z.lt_le_trans with (2 ^ size_bits); [lia|].
    apply Z.pow_le_mono_r; lia.
Qed.

Lemma ALIGN_multiple x :
  ALIGN x = wrap (x + wrap (ALIGNMENT - 1)) / ALIGNMENT * ALIGNMENT.
Proof.
  unfold ALIGN. destruct ABI as [[k [Hk HA]] _ _ _ _ _].
  rewrite HA. apply land_mask; [exact Hk | apply wrap_range].
Qed.

Lemma ALIGN_range x : 0 <= ALIGN x < 2 ^ size_bits.
Proof.
  rewrite ALIGN_multiple. pose proof alignment_range as HA.
  pose proof (wrap_range (x + wrap (ALIGNMENT - 1))) as Hw.
  pose proof (Z.mul_div_le (wrap (x + wrap (ALIGNMENT - 1))) ALIGNMENT).
  pose proof (Z.div_pos (wrap (x + wrap (ALIGNMENT - 1))) ALIGNMENT).
  nia.
Qed.

Lemma ALIGN_mod x : ALIGN x mod ALIGNMENT = 0.
Proof. rewrite ALIGN_multiple. apply Z_mod_mult. Qed.

(** Without overflow [ALIGN] is rounding up to the next multiple. *)
Lemma ALIGN_round_up x :
  0 <= x -> x + ALIGNMENT <= 2 ^ size_bits ->
  ALIGN x = (x + ALIGNMENT - 1) / ALIGNMENT * ALIGNMENT.
Proof.
  intros Hx Hov. rewrite ALIGN_multiple. pose proof alignment_range.
  rewrite (wrap_small (ALIGNMENT - 1)) by lia.
  rewrite wrap_small by lia. do 2 f_equal. lia.
Qed.

Lemma needed_range n :
  sizeof_BlockHeader + ALIGNMENT <= total_needed_size n < 2 ^ size_bits.
Proof.
  unfold total_needed_size. pose proof min_block_range as Hm.
  rewrite (wrap_small (sizeof_BlockHeader + ALIGNMENT)) by lia.
  pose proof (ALIGN_range (wrap (n + sizeof_BlockHeader))).
  destruct (Z.ltb_spec (ALIGN (wrap (n + sizeof_BlockHeader)))
              (sizeof_BlockHeader + ALIGNMENT)); lia.
Qed.

Lemma needed_mod n : total_needed_size n mod ALIGNMENT = 0.
Proof.
  unfold total_needed_size. pose proof min_block_range as Hm.
  rewrite (wrap_small (sizeof_BlockHeader + ALIGNMENT)) by lia.
  destruct (Z.ltb_spec (ALIGN (wrap (n + sizeof_BlockHeader)))
              (sizeof_BlockHeader + ALIGNMENT)).
  - destruct ABI as [_ [_ Hh] _ _ _ _]. pose proof alignment_range.
    rewrite Z.add_mod, Hh, Z.mod_same, Z.mod_0_l by lia. reflexivity.
  - apply ALIGN_mod.
Qed.

(** [needed(N)] as the specification writes it, when [N + sizeof(BlockHeader)]
    and the rounding stay within [size_t]. *)
Lemma needed_no_overflow n :
  0 <= n -> n + sizeof_BlockHeader + ALIGNMENT <= 2 ^ size_bits ->
  total_needed_size n =
  Z.max (sizeof_BlockHeader + ALIGNMENT)
    ((n + sizeof_BlockHeader + ALIGNMENT - 1) / ALIGNMENT * ALIGNMENT).
Proof.
  intros Hn Hov. unfold total_needed_size.
  pose proof min_block_range as Hm. pose proof alignment_range as HA.
  destruct ABI as [_ [Hh _] _ _ _ _].
  rewrite (wrap_small (sizeof_BlockHeader + ALIGNMENT)) by lia.
  rewrite (wrap_small (n + sizeof_BlockHeader)) by lia.
  rewrite ALIGN_round_up by lia.
  destruct (Z.ltb_spec ((n + sizeof_BlockHeader + ALIGNMENT - 1)
                          / ALIGNMENT * ALIGNMENT)
              (sizeof_BlockHeader + ALIGNMENT)); lia.
Qed.

(** ** Reading after writing *)

Lemma load_set_size m a v b :
  load (set_size m a v) b =
  if decide (a = b)
  then mkBlockHeader v (is_free (load m a)) (next_free (load m a))
  else load m b.
Proof.
  unfold set_size, load. rewrite lookup_insert. case_decide; reflexivity.
Qed.

Lemma load_set_is_free m a v b :
  load (set_is_free m a v) b =
  if decide (a = b)
  then mkBlockHeader (size (load m a)) v (next_free (load m a))
  else load m b.
Proof.
  unfold set_is_free, load. rewrite lookup_insert. case_decide; reflexivity.
Qed.

Lemma load_set_next_free m a v b :
  load (set_next_free m a v) b =
  if decide (a = b)
  then mkBlockHeader (size (load m a)) (is_free (load m a)) v
  else load m b.
Proof.
  unfold set_next_free, load. rewrite lookup_insert. case_decide; reflexivity.
Qed.

Ltac loads :=
  repeat (rewrite ?load_set_size, ?load_set_is_free, ?load_set_next_free;
          try case_decide; simpl; try congruence; try lia).

(** ** Paths *)

Lemma path_nil_inv nxt a b : path nxt a [] b -> a = b.
Proof. inversion 1. reflexivity. Qed.

Lemma path_cons_inv nxt a x l b :
  path nxt a (x :: l) b -> x = a /\ path nxt (nxt a) l b.
Proof. inversion 1; subst. split; [reflexivity | assumption]. Qed.

Lemma path_app nxt a l1 l2 b :
  path nxt a (l1 ++ l2) b <-> exists c, path nxt a l1 c /\ path nxt c l2 b.
Proof.
  revert a. induction l1 as [|x l1 IH]; intros a; simpl.
  - split.
    + intros H. exists a. split; [constructor | exact H].
    + intros [c [H1 H2]]. apply path_nil_inv in H1. subst. exact H2.
  - split.
    + intros H. apply path_cons_inv in H as [-> H].
      apply IH in H as [c [H1 H2]]. exists c. split; [constructor|]; assumption.
    + intros [c [H1 H2]]. apply path_cons_inv in H1 as [-> H1].
      constructor. apply IH. exists c. split; assumption.
Qed.

Lemma path_ext nxt nxt' a l b :
  (forall x, x ∈ l -> nxt' x = nxt x) -> path nxt a l b -> path nxt' a l b.
Proof.
  intros Hext H. induction H as [a | a l b H IH]; constructor.
  rewrite Hext by apply list_elem_of_here.
  apply IH. intros x Hx. apply Hext. apply list_elem_of_further. exact Hx.
Qed.

(** A walk whose every step moves forward stays between its two ends. *)
Lemma path_forward nxt a l b :
  (forall x, x ∈ l -> x < nxt x) -> path nxt a l b ->
  a <= b /\ forall x, x ∈ l -> a <= x /\ nxt x <= b.
Proof.
  intros Hf H. induction H as [a | a l b H IH].
  - split; [lia|]. intros x Hx. inversion Hx.
  - destruct IH as [Hle Hin].
    { intros x Hx. apply Hf. apply list_elem_of_further. exact Hx. }
    pose proof (Hf a (list_elem_of_here _ _)) as Ha.
    split; [lia|]. intros x Hx. apply elem_of_cons in Hx as [-> | Hx].
    + lia.
    + specialize (Hin x Hx). lia.
Qed.

Lemma path_forward_NoDup nxt a l b :
  (forall x, x ∈ l -> x < nxt x) -> path nxt a l b -> NoDup l.
Proof.
  intros Hf H. induction H as [a | a l b H IH]; [constructor|].
  assert (Hf' : forall x, x ∈ l -> x < nxt x).
  { intros x Hx. apply Hf. apply list_elem_of_further. exact Hx. }
  constructor; [|apply IH; exact Hf'].
  intros Ha. pose proof (Hf a (list_elem_of_here _ _)).
  destruct (path_forward _ _ _ _ Hf' H) as [_ Hin]. specialize (Hin a Ha). lia.
Qed.

(** A chain that reaches [NULL] without passing through it is the only one. *)
Lemma path_to_NULL_unique nxt a l l' :
  path nxt a l NULL -> NULL ∉ l -> path nxt a l' NULL -> NULL ∉ l' -> l = l'.
Proof.
  revert a l'. induction l as [|x l IH]; intros a l' H Hn H' Hn'.
  - apply path_nil_inv in H. subst a.
    destruct l' as [|y l']; [reflexivity|].
    apply path_cons_inv in H' as [-> _].
    exfalso. apply Hn'. apply list_elem_of_here.
  - apply path_cons_inv in H as [-> H].
    apply not_elem_of_cons in Hn as [Ha Hn].
    destruct l' as [|y l'].
    + apply path_nil_inv in H'. congruence.
    + apply path_cons_inv in H' as [-> H'].
      apply not_elem_of_cons in Hn' as [_ Hn'].
      f_equal. apply (IH (nxt a)); assumption.
Qed.

Lemma linked_iff m a l :
  path (link m) a l NULL -> NULL ∉ l -> forall b, linked m a b <-> b ∈ l.
Proof.
  revert a. induction l as [|x l IH]; intros a H Hn b.
  - apply path_nil_inv in H. subst a.
    split; [|inversion 1]. inversion 1; congruence.
  - apply path_cons_inv in H as [-> H].
    apply not_elem_of_cons in Hn as [Ha Hn].
    specialize (IH _ H Hn b). rewrite elem_of_cons. split.
    + inversion 1; subst; [left; reflexivity | right; apply IH; assumption].
    + intros [-> | Hb]; [apply linked_here; congruence|].
      apply linked_next; [congruence | apply IH; exact Hb].
Qed.

(** ** What each update leaves in the pool *)

Lemma split_block_loads s needed c prev :
  c <> wrap (c + needed) -> prev <> c -> prev <> wrap (c + needed) ->
  let s' := split_block s needed c prev in
  let new := wrap (c + needed) in
  load (pool s') c = mkBlockHeader needed false NULL
  /\ load (pool s') new =
     mkBlockHeader (wrap (size (load (pool s) c) - needed)) true
       (next_free (load (pool s) c))
  /\ (prev <> NULL -> load (pool s') prev =
        mkBlockHeader (size (load (pool s) prev))
          (is_free (load (pool s) prev)) new)
  /\ (forall x, x <> c -> x <> new -> x <> prev \/ prev = NULL ->
        load (pool s') x = load (pool s) x)
  /\ free_list_head s' = (if prev =? NULL then new else free_list_head s)
  /\ allocator_initialized s' = allocator_initialized s.
Proof.
  intros Hcn Hpc Hpn. unfold split_block.
  destruct (Z.eqb_spec prev NULL) as [Hp | Hp]; simpl.
  - repeat split; intros; loads.
  - repeat split; intros; loads.
Qed.

Lemma use_entire_block_loads s c prev :
  prev <> c ->
  let s' := use_entire_block s c prev in
  load (pool s') c = mkBlockHeader (size (load (pool s) c)) false NULL
  /\ (prev <> NULL -> load (pool s') prev =
        mkBlockHeader (size (load (pool s) prev))
          (is_free (load (pool s) prev)) (next_free (load (pool s) c)))
  /\ (forall x, x <> c -> x <> prev \/ prev = NULL ->
        load (pool s') x = load (pool s) x)
  /\ free_list_head s' =
     (if prev =? NULL then next_free (load (pool s) c) else free_list_head s)
  /\ allocator_initialized s' = allocator_initialized s.
Proof.
  intros Hpc. unfold use_entire_block.
  destruct (Z.eqb_spec prev NULL) as [Hp | Hp]; simpl.
  - repeat split; intros; loads.
  - repeat split; intros; loads.
Qed.

Lemma init_loads s :
  allocator_initialized s = false ->
  let s' := my_allocator_init s in
  load (pool s') memory_pool = mkBlockHeader POOL_SIZE true NULL
  /\ (forall x, x <> memory_pool -> load (pool s') x = load (pool s) x)
  /\ free_list_head s' = memory_pool
  /\ allocator_initialized s' = true.
Proof.
  intros Hi. unfold my_allocator_init. rewrite Hi. simpl.
  repeat split; intros; loads.
Qed.

Lemma init_idempotent s :
  allocator_initialized s = true -> my_allocator_init s = s.
Proof. intros Hi. unfold my_allocator_init. rewrite Hi. reflexivity. Qed.

(** ** The search loop *)

Lemma first_fit_more fuel k s needed cur prev r :
  first_fit fuel s needed cur prev = Some r ->
  first_fit (fuel + k) s needed cur prev = Some r.
Proof.
  revert cur prev. induction fuel as [|fuel IH]; intros cur prev; simpl.
  - discriminate.
  - destruct (cur =? NULL); [trivial|].
    destruct (fits needed (load (pool s) cur)); [trivial|]. apply IH.
Qed.

Lemma first_fit_agree f1 f2 s needed cur prev r1 r2 :
  first_fit f1 s needed cur prev = Some r1 ->
  first_fit f2 s needed cur prev = Some r2 -> r1 = r2.
Proof.
  intros H1 H2.
  apply (first_fit_more _ f2) in H1. apply (first_fit_more _ f1) in H2.
  rewrite Nat.add_comm in H2. congruence.
Qed.

Lemma last_cons_default (x d : Z) (l : list Z) :
  List.last (x :: l) d = List.last l x.
Proof.
  revert x d. induction l as [|y l IH]; intros x d; [reflexivity|].
  change (List.last (x :: y :: l) d) with (List.last (y :: l) d).
  rewrite (IH y d), (IH y x). reflexivity.
Qed.

(** Blocks that do not fit are passed one per iteration, and [prev_free]
    ends on the last of them. *)
Lemma first_fit_skip s needed skip : forall cur cur' prev k,
  path (link (pool s)) cur skip cur' -> NULL ∉ skip ->
  (forall x, x ∈ skip -> fits needed (load (pool s) x) = false) ->
  first_fit (length skip + k) s needed cur prev =
  first_fit k s needed cur' (List.last skip prev).
Proof.
  induction skip as [|x skip IH]; intros cur cur' prev k H Hn Hs.
  - apply path_nil_inv in H. subst. reflexivity.
  - apply path_cons_inv in H as [-> H].
    apply not_elem_of_cons in Hn as [Hc Hn].
    change (length (cur :: skip) + k)%nat with (S (length skip + k)).
    cbn [first_fit].
    destruct (Z.eqb_spec cur NULL) as [E | _]; [congruence|].
    rewrite (Hs cur) by apply list_elem_of_here.
    assert (IH' := IH _ cur' cur k H Hn). unfold link in IH'.
    rewrite IH'.
    + f_equal. symmetry. apply last_cons_default.
    + intros y Hy. apply Hs. apply list_elem_of_further. exact Hy.
Qed.

(** A list either has no element passing a test or splits at the first. *)
Lemma first_split (P : Z -> bool) (l : list Z) :
  (forall x, x ∈ l -> P x = false)
  \/ exists pre c post, l = pre ++ c :: post
       /\ (forall x, x ∈ pre -> P x = false) /\ P c = true.
Proof.
  induction l as [|a l IH].
  - left. intros x Hx. inversion Hx.
  - destruct (P a) eqn:Ha.
    + right. exists [], a, l. repeat split; [|exact Ha].
      intros x Hx. inversion Hx.
    + destruct IH as [IH | [pre [c [post [-> [Hpre Hc]]]]]].
      * left. intros x Hx. apply elem_of_cons in Hx as [-> | Hx]; auto.
      * right. exists (a :: pre), c, post. repeat split; [|exact Hc].
        intros x Hx. apply elem_of_cons in Hx as [-> | Hx]; auto.
Qed.

(** The pointer in [prev_free] when the loop stands after [pre]. *)
Lemma last_not_NULL (pre : list Z) :
  NULL ∉ pre -> pre <> [] -> List.last pre NULL <> NULL /\ List.last pre NULL ∈ pre.
Proof.
  intros Hn Hne. destruct pre as [|x pre] using rev_ind; [congruence|].
  rewrite List.last_last. split.
  - intros E. apply Hn. rewrite E. apply elem_of_app. right.
    apply list_elem_of_here.
  - apply elem_of_app. right. apply list_elem_of_here.
Qed.

(** ** Consequences of the invariant *)

Lemma divides_add a b :
  a mod ALIGNMENT = 0 -> b mod ALIGNMENT = 0 -> (a + b) mod ALIGNMENT = 0.
Proof.
  pose proof alignment_range. intros Ha Hb.
  rewrite Z.add_mod, Ha, Hb by lia. apply Z.mod_0_l. lia.
Qed.

Lemma blocks_forward tr s bs fl :
  pool_inv tr s bs fl -> forall x, x ∈ bs -> x < block_after (pool s) x.
Proof.
  intros I x Hx. pose proof (inv_min _ _ _ _ I x Hx).
  pose proof min_block_range. unfold block_after. lia.
Qed.

Lemma blocks_bounds tr s bs fl :
  pool_inv tr s bs fl ->
  forall a, a ∈ bs ->
    memory_pool <= a /\ a + size (load (pool s) a) <= pool_end.
Proof.
  intros I a Ha.
  destruct (path_forward _ _ _ _ (blocks_forward _ _ _ _ I)
              (inv_blocks _ _ _ _ I)) as [_ H].
  apply H. exact Ha.
Qed.

Lemma blocks_NoDup tr s bs fl : pool_inv tr s bs fl -> NoDup bs.
Proof.
  intros I. eapply path_forward_NoDup;
    [apply (blocks_forward _ _ _ _ I) | apply (inv_blocks _ _ _ _ I)].
Qed.

(** Around a block [c]: those before it end at or before [c], those after it
    start at or after its end. *)
Lemma blocks_around m start bs e c :
  path (block_after m) start bs e ->
  (forall x, x ∈ bs -> x < block_after m x) -> c ∈ bs ->
  exists bs1 bs2, bs = bs1 ++ c :: bs2
    /\ path (block_after m) start bs1 c
    /\ path (block_after m) (block_after m c) bs2 e
    /\ (forall x, x ∈ bs1 -> block_after m x <= c)
    /\ (forall x, x ∈ bs2 -> block_after m c <= x).
Proof.
  intros H Hf Hc. apply list_elem_of_split in Hc as [bs1 [bs2 ->]].
  exists bs1, bs2. split; [reflexivity|].
  apply path_app in H as [mid [H1 H2]].
  apply path_cons_inv in H2 as [-> H2].
  destruct (path_forward _ _ _ _
              (fun x Hx => Hf x (proj2 (elem_of_app _ _ _) (or_introl Hx))) H1)
    as [_ B1].
  destruct (path_forward (block_after m) _ bs2 _
              (fun x Hx => Hf x (proj2 (elem_of_app _ _ _)
                 (or_intror (list_elem_of_further _ _ _ Hx)))) H2)
    as [_ B2].
  repeat split; try assumption.
  - intros x Hx. apply B1. exact Hx.
  - intros x Hx. apply B2. exact Hx.
Qed.

Lemma free_in_blocks tr s bs fl a :
  pool_inv tr s bs fl -> a ∈ fl ->
  a ∈ bs /\ is_free (load (pool s) a) = true /\ a <> NULL.
Proof.
  intros I Ha. destruct (proj1 (inv_member _ _ _ _ I a) Ha) as [Hb Hf].
  repeat split; try assumption.
  destruct (inv_free_list _ _ _ _ I) as [_ Hn]. intros ->. contradiction.
Qed.

Lemma block_address tr s bs fl a :
  pool_inv tr s bs fl -> a ∈ bs ->
  0 < a /\ a + size (load (pool s) a) < 2 ^ size_bits
  /\ wrap (handle_of a - sizeof_BlockHeader) = a.
Proof.
  intros I Ha. pose proof (blocks_bounds _ _ _ _ I a Ha) as Hb.
  pose proof (inv_min _ _ _ _ I a Ha). pose proof min_block_range.
  destruct ABI as [_ _ Hbase Hfits _ _]. unfold pool_end in Hb.
  repeat split; try lia.
  unfold handle_of. rewrite wrap_small; lia.
Qed.

(** Moving the link that leads to the end of a chain: the head if the chain
    is empty, the [next_free] of its last node otherwise. *)
Lemma path_retarget nxt nxt' h pre c d :
  path nxt h pre c -> NoDup pre ->
  (forall x, x ∈ pre -> x <> List.last pre NULL -> nxt' x = nxt x) ->
  (pre <> [] -> nxt' (List.last pre NULL) = d) ->
  path nxt' (match pre with [] => d | _ => h end) pre d.
Proof.
  intros H Hnd Hsame Hlast.
  destruct pre as [|q pre] using rev_ind; [constructor|].
  assert (Hh : (match pre ++ [q] with [] => d | _ => h end) = h)
    by (destruct pre; reflexivity).
  rewrite Hh. rewrite List.last_last in *.
  apply path_app in H as [mid [H1 H2]].
  apply path_cons_inv in H2 as [-> H2]. apply path_nil_inv in H2.
  apply NoDup_app in Hnd as [_ [Hnq _]].
  apply path_app. exists mid. split.
  - eapply path_ext; [|exact H1]. intros x Hx. apply Hsame.
    + apply elem_of_app. left. exact Hx.
    + intros ->. apply (Hnq _ Hx). apply list_elem_of_here.
  - constructor. rewrite Hlast by (destruct pre; discriminate). constructor.
Qed.

Lemma NoDup_replace (pre post : list Z) c d :
  NoDup (pre ++ c :: post) -> d ∉ pre -> d ∉ post ->
  NoDup (pre ++ d :: post).
Proof.
  rewrite !NoDup_app, !NoDup_cons. intros [H1 [H2 [H3 H4]]] Hd1 Hd2.
  repeat split; try assumption.
  intros x Hx Hx'. apply elem_of_cons in Hx' as [-> | Hx'].
  - contradiction.
  - apply (H2 x Hx). apply list_elem_of_further. exact Hx'.
Qed.

Lemma NoDup_remove_mid (pre post : list Z) c :
  NoDup (pre ++ c :: post) -> NoDup (pre ++ post) /\ (c ∉ pre) /\ (c ∉ post).
Proof.
  rewrite !NoDup_app, !NoDup_cons. intros [H1 [H2 [H3 H4]]].
  repeat split; try assumption.
  - intros x Hx Hx'. apply (H2 x Hx). apply list_elem_of_further. exact Hx'.
  - intros Hc. apply (H2 c Hc). apply list_elem_of_here.
Qed.

(** ** The invariant is kept *)

(** Facts about the node found by the search and the link that leads to it. *)
Lemma found_node tr s bs fl pre c post :
  pool_inv tr s bs fl -> fl = pre ++ c :: post ->
  let prev := List.last pre NULL in
  c ∈ bs /\ is_free (load (pool s) c) = true /\ c <> NULL
  /\ prev <> c
  /\ (pre = [] -> prev = NULL)
  /\ (pre <> [] -> prev <> NULL /\ prev ∈ pre /\ prev ∈ bs)
  /\ path (link (pool s)) (free_list_head s) pre c
  /\ path (link (pool s)) (link (pool s) c) post NULL
  /\ NoDup (pre ++ post) /\ (c ∉ pre) /\ (c ∉ post)
  /\ (forall x, x ∈ pre -> x ∈ bs) /\ (forall x, x ∈ post -> x ∈ bs).
Proof.
  intros I -> prev.
  assert (Hin : forall x, x ∈ pre ++ c :: post -> x ∈ bs /\ x <> NULL).
  { intros x Hx. destruct (free_in_blocks _ _ _ _ x I Hx) as [? [? ?]]. auto. }
  destruct (free_in_blocks _ _ _ _ c I) as [Hcb [Hcf Hc0]].
  { apply elem_of_app. right. apply list_elem_of_here. }
  destruct (inv_free_list _ _ _ _ I) as [Hp Hn].
  apply path_app in Hp as [mid [Hp1 Hp2]].
  apply path_cons_inv in Hp2 as [-> Hp2].
  destruct (NoDup_remove_mid _ _ _ (inv_nodup _ _ _ _ I)) as [Hnd [Hc1 Hc2]].
  assert (Hnpre : NULL ∉ pre).
  { intros Hx. apply Hn. apply elem_of_app. left. exact Hx. }
  repeat split; try assumption.
  - destruct pre as [|x pre]; [exact (not_eq_sym Hc0)|].
    destruct (last_not_NULL (x :: pre) Hnpre) as [_ Hl]; [discriminate|].
    intros E. apply Hc1. rewrite <- E. exact Hl.
  - intros ->. reflexivity.
  - apply (last_not_NULL pre Hnpre H).
  - apply (last_not_NULL pre Hnpre H).
  - apply Hin. apply elem_of_app. left. apply (last_not_NULL pre Hnpre H).
  - intros x Hx. apply Hin. apply elem_of_app. left. exact Hx.
  - intros x Hx. apply Hin. apply elem_of_app. right.
    apply list_elem_of_further. exact Hx.
Qed.

Lemma handles_step tr s bs fl (bs' : list Z) p :
  pool_inv tr s bs fl -> (forall a, a ∈ bs -> a ∈ bs') ->
  (p = NULL \/ exists a, a ∈ bs' /\ p = handle_of a) ->
  forall n q, q ∈ handles (Allocate n p :: tr) ->
    q = NULL \/ exists a, a ∈ bs' /\ q = handle_of a.
Proof.
  intros I Hsub Hp n q Hq. simpl in Hq.
  apply elem_of_cons in Hq as [-> | Hq]; [exact Hp|].
  destruct (inv_handles _ _ _ _ I q Hq) as [-> | [a [Ha ->]]]; [left; reflexivity|].
  right. exists a. split; [apply Hsub; exact Ha | reflexivity].
Qed.

Lemma split_block_inv tr s bs fl pre c post n needed :
  pool_inv tr s bs fl -> fl = pre ++ c :: post ->
  sizeof_BlockHeader + ALIGNMENT <= needed -> needed mod ALIGNMENT = 0 ->
  needed + sizeof_BlockHeader + ALIGNMENT <= size (load (pool s) c) ->
  let s' := split_block s needed c (List.last pre NULL) in
  exists bs1 bs2, bs = bs1 ++ c :: bs2
    /\ pool_inv (Allocate n (handle_of c) :: tr) s'
         (bs1 ++ c :: (c + needed) :: bs2) (pre ++ (c + needed) :: post)
    /\ load (pool s') c = mkBlockHeader needed false NULL
    /\ load (pool s') (c + needed) =
       mkBlockHeader (size (load (pool s) c) - needed) true
         (next_free (load (pool s) c))
    /\ free_list_head s' =
       match pre with [] => c + needed | _ => free_list_head s end
    /\ (pre <> [] ->
        load (pool s') (List.last pre NULL) =
        mkBlockHeader (size (load (pool s) (List.last pre NULL)))
          (is_free (load (pool s) (List.last pre NULL))) (c + needed))
    /\ (forall x, x <> c -> x <> c + needed -> x <> List.last pre NULL ->
        load (pool s') x = load (pool s) x).
Proof.
  intros I Hfl Hmin Hmod Hroom.
  destruct (found_node _ _ _ _ _ _ _ I Hfl)
    as (Hcb & Hcf & Hc0 & Hpc & Hp0 & Hp1 & Hpath1 & Hpath2 & Hnd & Hc1 & Hc2
        & Hpreb & Hpostb).
  set (prev := List.last pre NULL) in *.
  destruct (blocks_around _ _ _ _ c (inv_blocks _ _ _ _ I)
              (blocks_forward _ _ _ _ I) Hcb)
    as (bs1 & bs2 & Hbs & Hb1 & Hb2 & Hlt1 & Hlt2).
  intros s0. subst s0. exists bs1, bs2. split; [exact Hbs|].
  pose proof (block_address _ _ _ _ c I Hcb) as (Hcpos & Hcend & _).
  pose proof min_block_range as Hmb.
  assert (Hbs1 : forall x, x ∈ bs1 -> x ∈ bs /\ x < c).
  { intros x Hx. assert (Hxb : x ∈ bs).
    { rewrite Hbs. apply elem_of_app. left. exact Hx. }
    split; [exact Hxb|]. pose proof (blocks_forward _ _ _ _ I x Hxb).
    specialize (Hlt1 x Hx). lia. }
  assert (Hbs2 : forall x, x ∈ bs2 ->
                   x ∈ bs /\ c + size (load (pool s) c) <= x).
  { intros x Hx. split; [|apply (Hlt2 x Hx)].
    rewrite Hbs. apply elem_of_app. right. apply list_elem_of_further.
    exact Hx. }
  assert (Hnewb : c + needed ∉ bs).
  { rewrite Hbs. intros Hx. apply elem_of_app in Hx as [Hx | Hx].
    - apply Hbs1 in Hx. lia.
    - apply elem_of_cons in Hx as [Hx | Hx]; [lia|]. apply Hbs2 in Hx. lia. }
  assert (Hnew : wrap (c + needed) = c + needed) by (apply wrap_small; lia).
  assert (Hrest : wrap (size (load (pool s) c) - needed)
                  = size (load (pool s) c) - needed)
    by (apply wrap_small; lia).
  assert (Hpn : prev <> c + needed).
  { destruct pre as [|x pre].
    - rewrite Hp0 by reflexivity. unfold NULL. lia.
    - intros E. apply Hnewb. rewrite <- E. apply Hp1. discriminate. }
  destruct (split_block_loads s needed c prev)
    as (Lc & Ln & Lp & Lo & Lh & Li);
    [rewrite Hnew; lia | exact Hpc | rewrite Hnew; exact Hpn |].
  rewrite Hnew, Hrest in *. clear Hnew Hrest.
  set (s' := split_block s needed c prev) in *.
  assert (Hkeep : forall x, x <> c -> x <> c + needed ->
            size (load (pool s') x) = size (load (pool s) x)
            /\ is_free (load (pool s') x) = is_free (load (pool s) x)).
  { intros x H1 H2. destruct (decide (prev = NULL)) as [E | E].
    - rewrite Lo by auto. auto.
    - destruct (decide (x = prev)) as [-> | E'].
      + rewrite Lp by exact E. auto.
      + rewrite Lo by auto. auto. }
  assert (Hlink : forall x, x <> c -> x <> c + needed ->
            x <> prev \/ prev = NULL -> link (pool s') x = link (pool s) x).
  { intros x H1 H2 H3. unfold link. rewrite Lo by assumption. reflexivity. }
  assert (Hnext1 : forall x, x ∈ bs1 ->
            block_after (pool s') x = block_after (pool s) x).
  { intros x Hx. apply Hbs1 in Hx as [Hx Hxc]. unfold block_after.
    f_equal. apply Hkeep; lia. }
  assert (Hnext2 : forall x, x ∈ bs2 ->
            block_after (pool s') x = block_after (pool s) x).
  { intros x Hx. apply Hbs2 in Hx as [Hx Hxc]. unfold block_after.
    f_equal. apply Hkeep; lia. }
  assert (Hfresh : forall x, x ∈ pre ++ post -> x <> c /\ x <> c + needed).
  { intros x Hx. apply elem_of_app in Hx as [Hx | Hx]; split;
      intros ->; auto. }
  assert (Hhead : free_list_head s' =
            match pre with [] => c + needed | _ => free_list_head s end).
  { rewrite Lh. destruct pre as [|x pre].
    - rewrite (Hp0 eq_refl). reflexivity.
    - destruct (Hp1 ltac:(discriminate)) as [E _].
      destruct (Z.eqb_spec prev NULL); [contradiction | reflexivity]. }
  split; [constructor | repeat split; try assumption].
  - rewrite Li. apply (inv_init _ _ _ _ I).
  - unfold blocks_of. apply path_app. exists c. split.
    + eapply path_ext; [exact Hnext1 | exact Hb1].
    + constructor.
      replace (block_after (pool s') c) with (c + needed)
        by (unfold block_after; rewrite Lc; reflexivity).
      constructor.
      replace (block_after (pool s') (c + needed))
        with (block_after (pool s) c)
        by (unfold block_after; rewrite Ln; simpl; lia).
      eapply path_ext; [exact Hnext2 | exact Hb2].
  - intros a Ha. apply elem_of_app in Ha as [Ha | Ha].
    { apply Hbs1 in Ha as [Ha Hac].
      rewrite (proj1 (Hkeep a ltac:(lia) ltac:(lia))).
      apply (inv_min _ _ _ _ I a Ha). }
    apply elem_of_cons in Ha as [-> | Ha]; [rewrite Lc; simpl; lia|].
    apply elem_of_cons in Ha as [-> | Ha]; [rewrite Ln; simpl; lia|].
    apply Hbs2 in Ha as [Ha Hac].
    rewrite (proj1 (Hkeep a ltac:(lia) ltac:(lia))).
    apply (inv_min _ _ _ _ I a Ha).
  - pose proof (inv_aligned _ _ _ _ I c Hcb) as Hca.
    intros a Ha. apply elem_of_app in Ha as [Ha | Ha].
    { apply Hbs1 in Ha as [Ha Hac]. apply (inv_aligned _ _ _ _ I a Ha). }
    apply elem_of_cons in Ha as [-> | Ha]; [exact Hca|].
    apply elem_of_cons in Ha as [-> | Ha].
    { replace (c + needed - memory_pool) with ((c - memory_pool) + needed)
        by lia.
      apply divides_add; assumption. }
    apply Hbs2 in Ha as [Ha Hac]. apply (inv_aligned _ _ _ _ I a Ha).
  - split.
    + apply path_app. exists (c + needed). split.
      * rewrite Hhead.
        eapply (path_retarget (link (pool s))); [exact Hpath1 | | |].
        -- apply NoDup_app in Hnd. tauto.
        -- intros x Hx Hxp. apply Hlink; [| | left; exact Hxp].
           ++ intros ->. contradiction.
           ++ intros ->. apply Hnewb. apply Hpreb. exact Hx.
        -- intros Hne. unfold link. fold prev.
           rewrite Lp by (apply Hp1; exact Hne).
           reflexivity.
      * constructor.
        replace (link (pool s') (c + needed)) with (link (pool s) c)
          by (unfold link; rewrite Ln; reflexivity).
        eapply path_ext; [|exact Hpath2]. intros x Hx.
        destruct (Hfresh x) as [Hxc Hxn];
          [apply elem_of_app; right; exact Hx|].
        apply Hlink; try assumption.
        destruct pre as [|y pre]; [right; apply Hp0; reflexivity|].
        left. intros ->. apply NoDup_app in Hnd as [_ [Hd _]].
        apply (Hd prev); [apply Hp1; discriminate | exact Hx].
    + destruct (inv_free_list _ _ _ _ I) as [_ Hn]. rewrite Hfl in Hn.
      intros Hx. apply elem_of_app in Hx as [Hx | Hx].
      * apply Hn. apply elem_of_app. left. exact Hx.
      * apply elem_of_cons in Hx as [Hx | Hx]; [unfold NULL in Hx; lia|].
        apply Hn. apply elem_of_app. right. apply list_elem_of_further.
        exact Hx.
  - apply (NoDup_replace pre post c).
    + rewrite <- Hfl. apply (inv_nodup _ _ _ _ I).
    + intros Hx. apply Hnewb. apply Hpreb. exact Hx.
    + intros Hx. apply Hnewb. apply Hpostb. exact Hx.
  - intros a. split.
    + intros Ha. assert (Hcase : a = c + needed \/ a ∈ pre ++ post).
      { rewrite elem_of_app in *. rewrite elem_of_cons in Ha. tauto. }
      destruct Hcase as [-> | Ha'].
      * split; [|rewrite Ln; reflexivity].
        apply elem_of_app. right. apply list_elem_of_further.
        apply list_elem_of_here.
      * destruct (Hfresh a Ha') as [Hac Han].
        assert (Hafl : a ∈ fl).
        { rewrite Hfl. rewrite elem_of_app in *. rewrite elem_of_cons. tauto. }
        apply (inv_member _ _ _ _ I) in Hafl as [Hab Haf].
        rewrite (proj2 (Hkeep a Hac Han)). split; [|exact Haf].
        rewrite Hbs in Hab. rewrite elem_of_app in *.
        rewrite !elem_of_cons in *. tauto.
    + intros [Ha Haf].
      assert (Hcase : a = c \/ a = c + needed \/ (a ∈ bs /\ a <> c)).
      { rewrite elem_of_app in Ha. rewrite !elem_of_cons in Ha.
        destruct Ha as [Ha | [-> | [-> | Ha]]]; auto.
        - right. right. apply Hbs1 in Ha. split; [tauto | lia].
        - right. right. apply Hbs2 in Ha. split; [tauto | lia]. }
      destruct Hcase as [-> | [-> | [Hab Hac]]].
      * rewrite Lc in Haf. discriminate.
      * apply elem_of_app. right. apply list_elem_of_here.
      * assert (Han : a <> c + needed) by (intros ->; contradiction).
        rewrite (proj2 (Hkeep a Hac Han)) in Haf.
        assert (Hafl : a ∈ fl) by (apply (inv_member _ _ _ _ I); auto).
        rewrite Hfl in Hafl. rewrite elem_of_app in *.
        rewrite elem_of_cons in *. tauto.
  - apply (handles_step tr s bs fl _ (handle_of c) I).
    + intros a Ha. rewrite Hbs in Ha. rewrite elem_of_app in *.
      rewrite !elem_of_cons in *. tauto.
    + right. exists c. split; [|reflexivity].
      apply elem_of_app. right. apply list_elem_of_here.
  - intros Hne. apply Lp. apply Hp1. exact Hne.
  - intros x H1 H2 H3. apply Lo; auto.
Qed.

Lemma use_entire_block_inv tr s bs fl pre c post n :
  pool_inv tr s bs fl -> fl = pre ++ c :: post ->
  let s' := use_entire_block s c (List.last pre NULL) in
  pool_inv (Allocate n (handle_of c) :: tr) s' bs (pre ++ post)
  /\ load (pool s') c = mkBlockHeader (size (load (pool s) c)) false NULL
  /\ (forall x, size (load (pool s') x) = size (load (pool s) x))
  /\ free_list_head s' =
     match pre with [] => next_free (load (pool s) c) | _ => free_list_head s end
  /\ (pre <> [] ->
      load (pool s') (List.last pre NULL) =
      mkBlockHeader (size (load (pool s) (List.last pre NULL)))
        (is_free (load (pool s) (List.last pre NULL)))
        (next_free (load (pool s) c)))
  /\ (forall x, x <> c -> x <> List.last pre NULL ->
      load (pool s') x = load (pool s) x).
Proof.
  intros I Hfl s0. subst s0.
  destruct (found_node _ _ _ _ _ _ _ I Hfl)
    as (Hcb & Hcf & Hc0 & Hpc & Hp0 & Hp1 & Hpath1 & Hpath2 & Hnd & Hc1 & Hc2
        & Hpreb & Hpostb).
  set (prev := List.last pre NULL) in *.
  destruct (use_entire_block_loads s c prev Hpc) as (Lc & Lp & Lo & Lh & Li).
  set (s' := use_entire_block s c prev) in *.
  assert (Hkeep : forall x,
            size (load (pool s') x) = size (load (pool s) x)
            /\ (x <> c ->
                is_free (load (pool s') x) = is_free (load (pool s) x))).
  { intros x. destruct (decide (x = c)) as [-> | Hxc].
    - rewrite Lc. simpl. split; [reflexivity | congruence].
    - destruct (decide (prev = NULL)) as [E | E].
      + rewrite Lo by auto. auto.
      + destruct (decide (x = prev)) as [-> | E'].
        * rewrite Lp by exact E. auto.
        * rewrite Lo by auto. auto. }
  assert (Hnext : forall x, block_after (pool s') x = block_after (pool s) x).
  { intros x. unfold block_after. f_equal. apply Hkeep. }
  assert (Hhead : free_list_head s' =
            match pre with
            | [] => next_free (load (pool s) c)
            | _ => free_list_head s
            end).
  { rewrite Lh. destruct pre as [|x pre].
    - rewrite (Hp0 eq_refl). reflexivity.
    - destruct (Hp1 ltac:(discriminate)) as [E _].
      destruct (Z.eqb_spec prev NULL); [contradiction | reflexivity]. }
  split; [constructor | repeat split; try assumption].
  - rewrite Li. apply (inv_init _ _ _ _ I).
  - unfold blocks_of. eapply path_ext; [|apply (inv_blocks _ _ _ _ I)].
    intros x _. apply Hnext.
  - intros a Ha. rewrite (proj1 (Hkeep a)). apply (inv_min _ _ _ _ I a Ha).
  - apply (inv_aligned _ _ _ _ I).
  - split.
    + apply path_app. exists (link (pool s) c). split.
      * rewrite Hhead. fold (link (pool s) c).
        eapply (path_retarget (link (pool s))); [exact Hpath1 | | |].
        -- apply NoDup_app in Hnd. tauto.
        -- intros x Hx Hxp. unfold link. rewrite Lo; [reflexivity | | left; exact Hxp].
           intros ->. contradiction.
        -- intros Hne. unfold link. fold prev.
           rewrite Lp by (apply Hp1; exact Hne). reflexivity.
      * eapply path_ext; [|exact Hpath2]. intros x Hx.
        unfold link. rewrite Lo; [reflexivity | |].
        -- intros ->. contradiction.
        -- destruct pre as [|y pre]; [right; apply Hp0; reflexivity|].
           left. intros ->. apply NoDup_app in Hnd as [_ [Hd _]].
           apply (Hd prev); [apply Hp1; discriminate | exact Hx].
    + destruct (inv_free_list _ _ _ _ I) as [_ Hn]. rewrite Hfl in Hn.
      intros Hx. apply Hn. rewrite elem_of_app in *. rewrite elem_of_cons.
      tauto.
  - exact Hnd.
  - intros a. split.
    + intros Ha. assert (Hac : a <> c).
      { intros ->. rewrite elem_of_app in Ha. tauto. }
      assert (Hafl : a ∈ fl).
      { rewrite Hfl. rewrite elem_of_app in *. rewrite elem_of_cons. tauto. }
      apply (inv_member _ _ _ _ I) in Hafl as [Hab Haf].
      rewrite (proj2 (Hkeep a) Hac). auto.
    + intros [Hab Haf]. assert (Hac : a <> c).
      { intros ->. rewrite Lc in Haf. discriminate. }
      rewrite (proj2 (Hkeep a) Hac) in Haf.
      assert (Hafl : a ∈ fl) by (apply (inv_member _ _ _ _ I); auto).
      rewrite Hfl in Hafl. rewrite elem_of_app in *.
      rewrite elem_of_cons in Hafl. tauto.
  - apply (handles_step tr s bs fl _ (handle_of c) I); [auto|].
    right. exists c. auto.
  - intros x. apply Hkeep.
  - intros Hne. apply Lp. apply Hp1. exact Hne.
  - intros x H1 H2. apply Lo; auto.
Qed.

Lemma pool_inv_trace tr tr' s bs fl :
  handles tr' = handles tr -> pool_inv tr s bs fl -> pool_inv tr' s bs fl.
Proof.
  intros E [I1 I2 I3 I4 I5 I6 I7 I8]. constructor; try assumption.
  rewrite E. exact I8.
Qed.

(** The calls [my_free] turns away. *)
Lemma my_free_rejected s p :
  p = NULL \/ allocator_initialized s = false \/ out_of_pool p
  \/ is_free (load (pool s) (wrap (p - sizeof_BlockHeader))) = true ->
  my_free s p = s.
Proof.
  unfold my_free, out_of_pool. intros H.
  destruct (Z.eqb_spec p NULL) as [|Hp]; [reflexivity|].
  destruct (allocator_initialized s); [simpl | reflexivity].
  destruct (Z.ltb_spec (wrap (p - sizeof_BlockHeader)) memory_pool);
    [reflexivity|].
  destruct (Z.leb_spec pool_end (wrap (p - sizeof_BlockHeader)));
    [reflexivity | simpl].
  destruct (is_free (load (pool s) (wrap (p - sizeof_BlockHeader))));
    [reflexivity|].
  destruct H as [H | [H | [[H | H] | H]]]; try congruence; lia.
Qed.

Lemma my_free_loads s a :
  allocator_initialized s = true ->
  handle_of a <> NULL -> wrap (handle_of a - sizeof_BlockHeader) = a ->
  memory_pool <= a < pool_end -> is_free (load (pool s) a) = false ->
  let s' := my_free s (handle_of a) in
  load (pool s') a =
    mkBlockHeader (size (load (pool s) a)) true (free_list_head s)
  /\ (forall x, x <> a -> load (pool s') x = load (pool s) x)
  /\ free_list_head s' = a
  /\ allocator_initialized s' = true.
Proof.
  intros Hi Hp Hw Hb Hf. unfold my_free.
  destruct (Z.eqb_spec (handle_of a) NULL) as [|_]; [contradiction|].
  rewrite Hi, Hw, Hf. simpl.
  destruct (Z.ltb_spec a memory_pool); [lia|].
  destruct (Z.leb_spec pool_end a); [lia|]. simpl.
  repeat split; intros; loads.
Qed.

Lemma my_free_inv tr s bs fl a :
  pool_inv tr s bs fl -> a ∈ bs -> is_free (load (pool s) a) = false ->
  pool_inv (Deallocate (handle_of a) :: tr) (my_free s (handle_of a))
    bs (a :: fl).
Proof.
  intros I Hab Haf.
  destruct (block_address _ _ _ _ a I Hab) as (Hapos & Haend & Hw).
  pose proof (blocks_bounds _ _ _ _ I a Hab) as Hbound.
  pose proof (inv_min _ _ _ _ I a Hab) as Hmin.
  pose proof min_block_range as Hmb.
  assert (Hafl : a ∉ fl).
  { intros Hx. apply (inv_member _ _ _ _ I) in Hx as [_ Hx]. congruence. }
  destruct (my_free_loads s a) as (La & Lo & Lh & Li);
    [apply (inv_init _ _ _ _ I) | | exact Hw | lia | exact Haf |].
  { destruct ABI as [_ [Hh _] _ _ _ _]. unfold handle_of, NULL. lia. }
  set (s' := my_free s (handle_of a)) in *.
  assert (Hsize : forall x, size (load (pool s') x) = size (load (pool s) x)).
  { intros x. destruct (decide (x = a)) as [-> | Hx].
    - rewrite La. reflexivity.
    - rewrite Lo by exact Hx. reflexivity. }
  destruct (inv_free_list _ _ _ _ I) as [Hpath Hn].
  apply (pool_inv_trace tr); [reflexivity|]. constructor.
  - exact Li.
  - unfold blocks_of. eapply path_ext; [|apply (inv_blocks _ _ _ _ I)].
    intros x _. unfold block_after. rewrite Hsize. reflexivity.
  - intros x Hx. rewrite Hsize. apply (inv_min _ _ _ _ I x Hx).
  - apply (inv_aligned _ _ _ _ I).
  - split.
    + rewrite Lh. constructor.
      replace (link (pool s') a) with (free_list_head s)
        by (unfold link; rewrite La; reflexivity).
      eapply path_ext; [|exact Hpath]. intros x Hx.
      unfold link. rewrite Lo; [reflexivity|]. intros ->. contradiction.
    + apply not_elem_of_cons. split; [unfold NULL; lia | exact Hn].
  - apply NoDup_cons. split; [exact Hafl | apply (inv_nodup _ _ _ _ I)].
  - intros x. rewrite elem_of_cons. split.
    + intros [-> | Hx].
      * split; [exact Hab | rewrite La; reflexivity].
      * assert (Hxa : x <> a) by (intros ->; contradiction).
        rewrite Lo by exact Hxa. apply (inv_member _ _ _ _ I). exact Hx.
    + intros [Hxb Hxf]. destruct (decide (x = a)) as [-> | Hxa]; [auto|].
      right. rewrite Lo in Hxf by exact Hxa.
      apply (inv_member _ _ _ _ I). auto.
  - apply (inv_handles _ _ _ _ I).
Qed.

Lemma init_inv s :
  allocator_initialized s = false ->
  pool_inv [] (my_allocator_init s) [memory_pool] [memory_pool].
Proof.
  intros Hi. destruct (init_loads s Hi) as (Lp & Lo & Lh & Li).
  destruct ABI as [_ _ Hbase Hfits Hmin _].
  constructor.
  - exact Li.
  - unfold blocks_of. constructor.
    replace (block_after (pool (my_allocator_init s)) memory_pool)
      with pool_end by (unfold block_after; rewrite Lp; reflexivity).
    constructor.
  - intros a Ha. apply list_elem_of_singleton in Ha as ->.
    rewrite Lp. simpl. lia.
  - intros a Ha. apply list_elem_of_singleton in Ha as ->.
    rewrite Z.sub_diag. apply Z.mod_0_l. pose proof alignment_range. lia.
  - split.
    + rewrite Lh. constructor.
      replace (link (pool (my_allocator_init s)) memory_pool) with NULL
        by (unfold link; rewrite Lp; reflexivity).
      constructor.
    + intros Hx. apply list_elem_of_singleton in Hx. unfold NULL in Hx. lia.
  - apply NoDup_singleton.
  - intros a. rewrite list_elem_of_singleton. split.
    + intros ->. rewrite Lp. auto.
    + tauto.
  - intros p Hp. inversion Hp.
Qed.

(** ** What [my_malloc] does on a pool that satisfies the invariant *)

Lemma fit_no_overflow tr s bs fl c needed :
  pool_inv tr s bs fl -> c ∈ bs ->
  sizeof_BlockHeader + ALIGNMENT <= needed ->
  needed <= size (load (pool s) c) ->
  wrap (needed + sizeof_BlockHeader + ALIGNMENT)
  = needed + sizeof_BlockHeader + ALIGNMENT
  /\ wrap (c + sizeof_BlockHeader) = handle_of c.
Proof.
  intros I Hc Hmin Hle.
  pose proof (blocks_bounds _ _ _ _ I c Hc) as Hb.
  destruct (block_address _ _ _ _ c I Hc) as (Hpos & Hend & _).
  pose proof (inv_min _ _ _ _ I c Hc) as Hsz.
  pose proof min_block_range as Hmb. pose proof alignment_range as Ha.
  destruct ABI as [_ [Hh _] _ _ _ Hsmall]. unfold pool_end in Hb.
  split; [|unfold handle_of]; apply wrap_small; lia.
Qed.

Lemma first_fit_none s fl needed k :
  free_list_of s fl ->
  (forall x, x ∈ fl -> fits needed (load (pool s) x) = false) ->
  first_fit (length fl + S k) s needed (free_list_head s) NULL = Some (s, NULL).
Proof.
  intros [Hp Hn] Hs.
  rewrite (first_fit_skip s needed fl _ NULL NULL (S k) Hp Hn Hs).
  reflexivity.
Qed.

Lemma first_fit_found tr s bs fl pre c post needed k :
  pool_inv tr s bs fl -> fl = pre ++ c :: post ->
  (forall x, x ∈ pre -> fits needed (load (pool s) x) = false) ->
  fits needed (load (pool s) c) = true ->
  sizeof_BlockHeader + ALIGNMENT <= needed ->
  first_fit (length pre + S k) s needed (free_list_head s) NULL =
  Some (if needed + sizeof_BlockHeader + ALIGNMENT <=? size (load (pool s) c)
        then split_block s needed c (List.last pre NULL)
        else use_entire_block s c (List.last pre NULL),
        handle_of c).
Proof.
  intros I Hfl Hpre Hc Hmin.
  destruct (found_node _ _ _ _ _ _ _ I Hfl)
    as (Hcb & Hcf & Hc0 & _ & _ & _ & Hpath1 & _ & _ & _ & _ & Hpreb & _).
  destruct (inv_free_list _ _ _ _ I) as [_ Hn].
  assert (Hnpre : NULL ∉ pre).
  { intros Hx. apply Hn. rewrite Hfl. apply elem_of_app. left. exact Hx. }
  rewrite (first_fit_skip s needed pre _ c NULL (S k) Hpath1 Hnpre Hpre).
  cbn [first_fit].
  destruct (Z.eqb_spec c NULL) as [|_]; [contradiction|].
  rewrite Hc.
  assert (Hle : needed <= size (load (pool s) c)).
  { unfold fits in Hc. apply andb_prop in Hc as [_ Hc]. lia. }
  destruct (fit_no_overflow _ _ _ _ c needed I Hcb Hmin Hle) as [-> ->].
  destruct (needed + sizeof_BlockHeader + ALIGNMENT
            <=? size (load (pool s) c)); reflexivity.
Qed.

(** The result of a call that returns, whatever fuel it was given. *)
Lemma my_malloc_cases tr s bs fl fuel n s' p :
  pool_inv tr s bs fl -> my_malloc fuel s n = Some (s', p) ->
  (s' = s /\ p = NULL
   /\ (n = 0 \/ forall x, x ∈ fl ->
                  fits (total_needed_size n) (load (pool s) x) = false))
  \/ exists pre c post, n <> 0 /\ fl = pre ++ c :: post
       /\ (forall x, x ∈ pre ->
             fits (total_needed_size n) (load (pool s) x) = false)
       /\ fits (total_needed_size n) (load (pool s) c) = true
       /\ p = handle_of c
       /\ s' = (if total_needed_size n + sizeof_BlockHeader + ALIGNMENT
                   <=? size (load (pool s) c)
                then split_block s (total_needed_size n) c
                       (List.last pre NULL)
                else use_entire_block s c (List.last pre NULL)).
Proof.
  intros I. unfold my_malloc.
  rewrite (init_idempotent s (inv_init _ _ _ _ I)).
  destruct (Z.eqb_spec n 0) as [-> | Hn].
  - intros [= <- <-]. left. auto.
  - intros H.
    destruct (first_split
                (fun x => fits (total_needed_size n) (load (pool s) x)) fl)
      as [Hnone | (pre & c & post & Hfl & Hpre & Hc)].
    + pose proof (first_fit_none s fl _ 0 (inv_free_list _ _ _ _ I) Hnone)
        as H'.
      pose proof (first_fit_agree _ _ _ _ _ _ _ _ H H') as [= -> ->].
      left. auto.
    + pose proof (first_fit_found _ _ _ _ pre c post _ 0 I Hfl Hpre Hc
                    (proj1 (needed_range n))) as H'.
      pose proof (first_fit_agree _ _ _ _ _ _ _ _ H H') as [= -> ->].
      right. exists pre, c, post. auto 10.
Qed.

(** Every call of [my_malloc] returns: the search needs at most one iteration
    per node of the free list, and one more to see [NULL]. *)
Lemma my_malloc_returns tr s bs fl n fuel :
  pool_inv tr s bs fl -> (length fl < fuel)%nat ->
  exists s' p, my_malloc fuel s n = Some (s', p).
Proof.
  intros I Hfuel. unfold my_malloc.
  rewrite (init_idempotent s (inv_init _ _ _ _ I)).
  destruct (Z.eqb_spec n 0) as [-> | Hn]; [eauto|].
  destruct (first_split
              (fun x => fits (total_needed_size n) (load (pool s) x)) fl)
    as [Hnone | (pre & c & post & Hfl & Hpre & Hc)].
  - replace fuel with (length fl + S (fuel - length fl - 1))%nat by lia.
    rewrite (first_fit_none s fl _ _ (inv_free_list _ _ _ _ I) Hnone). eauto.
  - assert (length pre < fuel)%nat.
    { rewrite Hfl in Hfuel. rewrite length_app in Hfuel. lia. }
    replace fuel with (length pre + S (fuel - length pre - 1))%nat by lia.
    rewrite (first_fit_found _ _ _ _ pre c post _ _ I Hfl Hpre Hc
               (proj1 (needed_range n))). eauto.
Qed.

Lemma my_malloc_inv tr s bs fl fuel n s' p :
  pool_inv tr s bs fl -> my_malloc fuel s n = Some (s', p) ->
  exists bs' fl', pool_inv (Allocate n p :: tr) s' bs' fl'
    /\ (forall a, a ∈ bs -> a ∈ bs').
Proof.
  intros I H.
  destruct (my_malloc_cases _ _ _ _ _ _ _ _ I H)
    as [(-> & -> & _) | (pre & c & post & Hn & Hfl & Hpre & Hc & -> & ->)].
  - exists bs, fl. split; [|auto]. destruct I. constructor; try assumption.
    intros q Hq. simpl in Hq. apply elem_of_cons in Hq as [-> | Hq]; auto.
  - assert (Hle : total_needed_size n <= size (load (pool s) c)).
    { unfold fits in Hc. apply andb_prop in Hc as [_ Hc]. lia. }
    destruct (Z.leb_spec
                (total_needed_size n + sizeof_BlockHeader + ALIGNMENT)
                (size (load (pool s) c))) as [Hroom | Hroom].
    + destruct (split_block_inv _ _ _ _ pre c post n _ I Hfl
                  (proj1 (needed_range n)) (needed_mod n) Hroom)
        as (bs1 & bs2 & Hbs & I' & _).
      eexists _, _. split; [exact I'|].
      intros a Ha. rewrite Hbs in Ha. rewrite elem_of_app in *.
      rewrite !elem_of_cons in *. tauto.
    + exists bs, (pre ++ post). split; [|auto].
      apply (use_entire_block_inv tr s bs fl); assumption.
Qed.

(** The invariant holds after every call of a run. *)
Lemma run_inv tr s : run tr s -> exists bs fl, pool_inv tr s bs fl.
Proof.
  induction 1 as [| tr s R IH | tr s fuel n s' p R IH Hm | tr s p R IH Hp].
  - eexists _, _. apply init_inv. reflexivity.
  - destruct IH as (bs & fl & I). exists bs, fl.
    rewrite (init_idempotent s (inv_init _ _ _ _ I)).
    apply (pool_inv_trace tr); [reflexivity | exact I].
  - destruct IH as (bs & fl & I).
    destruct (my_malloc_inv _ _ _ _ _ _ _ _ I Hm) as (bs' & fl' & I' & _).
    eauto.
  - destruct IH as (bs & fl & I).
    assert (Hsame : my_free s p = s -> exists bs fl,
                      pool_inv (Deallocate p :: tr) (my_free s p) bs fl).
    { intros ->. exists bs, fl.
      apply (pool_inv_trace tr); [reflexivity | exact I]. }
    destruct Hp as [Hp | [Hp | Hp]].
    + apply Hsame. apply my_free_rejected. auto.
    + apply Hsame. apply my_free_rejected. auto.
    + destruct (inv_handles _ _ _ _ I p Hp) as [-> | (a & Ha & ->)].
      * apply Hsame. apply my_free_rejected. auto.
      * destruct (is_free (load (pool s) a)) eqn:Hf.
        -- apply Hsame. apply my_free_rejected. right. right. right.
           destruct (block_address _ _ _ _ a I Ha) as (_ & _ & ->). exact Hf.
        -- exists bs, (a :: fl). apply my_free_inv; assumption.
Qed.

(** In a run no call of [my_malloc] is left without an answer. *)
Lemma run_malloc_returns tr s n :
  run tr s -> exists fuel s' p, my_malloc fuel s n = Some (s', p).
Proof.
  intros R. destruct (run_inv _ _ R) as (bs & fl & I).
  exists (S (length fl)).
  apply (my_malloc_returns _ _ _ _ n _ I). lia.
Qed.

(** In a run the headers of two blocks share no byte, and each lies within
    the pool: reading and writing them one at a time is what the code does
    on the bytes of [memory_pool]. *)
Lemma headers_apart tr s a b :
  run tr s ->
  exists bs, blocks_of s bs
    /\ (a ∈ bs -> memory_pool <= a /\ a + sizeof_BlockHeader <= pool_end)
    /\ (a ∈ bs -> b ∈ bs -> a <> b ->
        a + sizeof_BlockHeader <= b \/ b + sizeof_BlockHeader <= a).
Proof.
  intros R. destruct (run_inv _ _ R) as (bs & fl & I). exists bs.
  pose proof alignment_range as HA.
  split; [apply (inv_blocks _ _ _ _ I)|]. split.
  - intros Ha. pose proof (blocks_bounds _ _ _ _ I a Ha).
    pose proof (inv_min _ _ _ _ I a Ha). lia.
  - intros Ha Hb Hab.
    destruct (blocks_around _ _ _ _ a (inv_blocks _ _ _ _ I)
                (blocks_forward _ _ _ _ I) Ha)
      as (bs1 & bs2 & Hbs & _ & _ & Hlt1 & Hlt2).
    pose proof (inv_min _ _ _ _ I a Ha). pose proof (inv_min _ _ _ _ I b Hb).
    rewrite Hbs in Hb. apply elem_of_app in Hb as [Hb | Hb].
    + right. specialize (Hlt1 b Hb). unfold block_after in Hlt1. lia.
    + apply elem_of_cons in Hb as [Hb | Hb]; [congruence|].
      left. specialize (Hlt2 b Hb). unfold block_after in Hlt2. lia.
Qed.

(** ** The pool and the free list after every call *)

Lemma path_total m a bs e :
  path (block_after m) a bs e -> a + total_size m bs = e.
Proof.
  induction 1 as [a | a l b H IH]; simpl; [lia|].
  unfold block_after in IH. lia.
Qed.

Lemma fits_free needed h :
  is_free h = true -> fits needed h = (needed <=? size h).
Proof. intros Hf. unfold fits. rewrite Hf. reflexivity. Qed.

Lemma free_list_unique s fl fl' :
  free_list_of s fl -> free_list_of s fl' -> fl = fl'.
Proof.
  intros [H Hn] [H' Hn']. exact (path_to_NULL_unique _ _ _ _ H Hn H' Hn').
Qed.

(** In a run, the search stops on the first node of the free list that is
    large enough, and takes one of the two branches there. *)
Lemma select_first_fit tr s fl pre B post n fuel :
  run tr s -> free_list_of s fl -> 0 < n ->
  fl = pre ++ B :: post ->
  (forall x, x ∈ pre -> size (load (pool s) x) < total_needed_size n) ->
  total_needed_size n <= size (load (pool s) B) ->
  (length pre < fuel)%nat ->
  exists bs, pool_inv tr s bs fl
    /\ my_malloc fuel s n =
       Some (if total_needed_size n + sizeof_BlockHeader + ALIGNMENT
                <=? size (load (pool s) B)
             then split_block s (total_needed_size n) B (List.last pre NULL)
             else use_entire_block s B (List.last pre NULL),
             handle_of B).
Proof.
  intros R Hfl Hn Hsplit Hpre HB Hfuel.
  destruct (run_inv _ _ R) as (bs & fl0 & I).
  rewrite <- (free_list_unique _ _ _ Hfl (inv_free_list _ _ _ _ I)) in I.
  exists bs. split; [exact I|].
  unfold my_malloc. rewrite (init_idempotent s (inv_init _ _ _ _ I)).
  destruct (Z.eqb_spec n 0) as [|_]; [lia|].
  assert (Hfree : forall x, x ∈ fl -> is_free (load (pool s) x) = true).
  { intros x Hx. apply (inv_member _ _ _ _ I) in Hx. tauto. }
  replace fuel with (length pre + S (fuel - length pre - 1))%nat by lia.
  apply (first_fit_found _ _ _ _ pre B post _ _ I Hsplit).
  - intros x Hx. rewrite fits_free.
    + specialize (Hpre x Hx). lia.
    + apply Hfree. rewrite Hsplit. apply elem_of_app. left. exact Hx.
  - rewrite fits_free; [lia|]. apply Hfree. rewrite Hsplit.
    apply elem_of_app. right. apply list_elem_of_here.
  - apply (needed_range n).
Qed.

(** C1. After every call of a run that starts on the initialized pool, the
    walk from the first byte of the pool that advances by the size of the
    block it stands on visits a list of blocks without repetition, each of
    positive size and inside the pool, and lands exactly on the end of the
    pool; the sizes add up to [POOL_SIZE]. *)
Theorem coverage_invariant tr s :
  run tr s ->
  exists bs, blocks_of s bs /\ NoDup bs
    /\ (forall a, a ∈ bs ->
          0 < size (load (pool s) a)
          /\ memory_pool <= a /\ a + size (load (pool s) a) <= pool_end)
    /\ total_size (pool s) bs = POOL_SIZE.
Proof.
  intros R. destruct (run_inv _ _ R) as (bs & fl & I). exists bs.
  split; [apply (inv_blocks _ _ _ _ I)|].
  split; [apply (blocks_NoDup _ _ _ _ I)|]. split.
  - intros a Ha. pose proof (inv_min _ _ _ _ I a Ha).
    pose proof min_block_range.
    pose proof (blocks_bounds _ _ _ _ I a Ha). lia.
  - pose proof (path_total _ _ _ _ (inv_blocks _ _ _ _ I)) as H.
    unfold pool_end in H. lia.
Qed.

(** C2. After every call of a run, the nodes met from the head of the free
    list along [next_free] form a finite chain that ends on [NULL] and meets
    no node twice; a block of the pool is on that chain if and only if its
    [is_free] flag is set, every node of the chain is a block, and the chain
    is no longer than the list of blocks. *)
Theorem free_list_consistency tr s :
  run tr s ->
  exists bs fl, blocks_of s bs /\ free_list_of s fl /\ NoDup fl
    /\ (forall a, a ∈ bs ->
          (linked (pool s) (free_list_head s) a
           <-> is_free (load (pool s) a) = true))
    /\ (forall a, linked (pool s) (free_list_head s) a -> a ∈ bs)
    /\ (length fl <= length bs)%nat.
Proof.
  intros R. destruct (run_inv _ _ R) as (bs & fl & I). exists bs, fl.
  destruct (inv_free_list _ _ _ _ I) as [Hp Hn].
  pose proof (linked_iff _ _ _ Hp Hn) as Hl.
  split; [apply (inv_blocks _ _ _ _ I)|].
  split; [apply (inv_free_list _ _ _ _ I)|].
  split; [apply (inv_nodup _ _ _ _ I)|]. split; [|split].
  - intros a Ha. rewrite Hl. rewrite (inv_member _ _ _ _ I a). tauto.
  - intros a Ha. apply Hl in Ha. apply (inv_member _ _ _ _ I) in Ha. tauto.
  - apply submseteq_length. apply NoDup_submseteq.
    + apply (inv_nodup _ _ _ _ I).
    + intros a Ha. apply (inv_member _ _ _ _ I) in Ha. tauto.
Qed.

(** C3. In a run, when [my_malloc(n)] with [n > 0] finds as first fit a free
    block [B] with room for a second block, it returns the handle of [B] and
    leaves in place of [B] two blocks: [B], allocated, of size exactly
    [total_needed_size n], and right after it a free block of the remaining
    size whose [next_free] is the old one of [B].  The new block stands where
    [B] stood in the free list: the head, or the [next_free] of the node
    before [B], now points to it.  The other blocks keep size and status. *)
Theorem split_correctness tr s fl pre B post n fuel :
  run tr s -> free_list_of s fl -> 0 < n ->
  fl = pre ++ B :: post ->
  (forall x, x ∈ pre -> size (load (pool s) x) < total_needed_size n) ->
  total_needed_size n + sizeof_BlockHeader + ALIGNMENT
    <= size (load (pool s) B) ->
  (length pre < fuel)%nat ->
  exists s' bs1 bs2,
    my_malloc fuel s n = Some (s', B + sizeof_BlockHeader)
    /\ blocks_of s (bs1 ++ B :: bs2)
    /\ blocks_of s' (bs1 ++ B :: (B + total_needed_size n) :: bs2)
    /\ load (pool s') B = mkBlockHeader (total_needed_size n) false NULL
    /\ load (pool s') (B + total_needed_size n) =
       mkBlockHeader (size (load (pool s) B) - total_needed_size n) true
         (next_free (load (pool s) B))
    /\ free_list_of s' (pre ++ (B + total_needed_size n) :: post)
    /\ free_list_head s' =
       match pre with
       | [] => B + total_needed_size n
       | _ => free_list_head s
       end
    /\ (pre <> [] ->
        next_free (load (pool s') (List.last pre NULL))
        = B + total_needed_size n)
    /\ (forall x, x ∈ bs1 ++ bs2 ->
        size (load (pool s') x) = size (load (pool s) x)
        /\ is_free (load (pool s') x) = is_free (load (pool s) x)).
Proof.
  intros R Hfl Hn Hsplit Hpre Hroom Hfuel.
  pose proof (needed_range n) as Hrange. pose proof min_block_range as Hmb.
  destruct (select_first_fit _ _ _ _ _ _ _ _ R Hfl Hn Hsplit Hpre
              ltac:(lia) Hfuel) as (bs & I & Hm).
  destruct (Z.leb_spec (total_needed_size n + sizeof_BlockHeader + ALIGNMENT)
              (size (load (pool s) B))) as [_ | Hlt]; [|lia].
  destruct (split_block_inv _ _ _ _ pre B post n _ I Hsplit
              (proj1 Hrange) (needed_mod n) Hroom)
    as (bs1 & bs2 & Hbs & I' & LB & Lnew & Lhead & Lprev & Lframe).
  eexists _, bs1, bs2. split; [exact Hm|].
  split; [rewrite <- Hbs; apply (inv_blocks _ _ _ _ I)|].
  split; [apply (inv_blocks _ _ _ _ I')|].
  split; [exact LB|]. split; [exact Lnew|].
  split; [apply (inv_free_list _ _ _ _ I')|].
  split; [exact Lhead|]. split.
  - intros Hne. rewrite (Lprev Hne). reflexivity.
  - intros x Hx.
    pose proof (blocks_NoDup _ _ _ _ I') as Hnd.
    assert (HxB : x <> B /\ x <> B + total_needed_size n).
    { apply NoDup_app in Hnd as (_ & Hd & Hnd).
      apply NoDup_cons in Hnd as (HB & Hnd).
      apply NoDup_cons in Hnd as (Hnew & _).
      apply elem_of_app in Hx as [Hx | Hx].
      - split; intros ->; apply (Hd _ Hx).
        + apply list_elem_of_here.
        + apply list_elem_of_further. apply list_elem_of_here.
      - split; intros ->; [|contradiction].
        apply HB. apply list_elem_of_further. exact Hx. }
    assert (Hx0 : x <> NULL).
    { assert (Hxb : x ∈ bs1 ++ B :: (B + total_needed_size n) :: bs2).
      { rewrite elem_of_app in *. rewrite !elem_of_cons. tauto. }
      destruct (block_address _ _ _ _ x I' Hxb) as (Hpos & _).
      unfold NULL. lia. }
    destruct (decide (x = List.last pre NULL)) as [E | Hxp].
    + destruct pre as [|y pre]; [contradiction|].
      rewrite E, Lprev by discriminate. auto.
    + rewrite Lframe; tauto.
Qed.

(** C4. In a run, when [my_malloc(n)] with [n > 0] finds as first fit a free
    block [B] that is large enough but has no room for a second block, it
    returns the handle of [B] and hands out the whole of it: the size of [B]
    is unchanged, [B] is allocated, the link that led to [B] (the head, or the
    [next_free] of the node before it) now holds the old [next_free] of [B],
    and the blocks of the pool are the same as before. *)
Theorem no_split_consume tr s bs fl pre B post n fuel :
  run tr s -> blocks_of s bs -> free_list_of s fl -> 0 < n ->
  fl = pre ++ B :: post ->
  (forall x, x ∈ pre -> size (load (pool s) x) < total_needed_size n) ->
  total_needed_size n <= size (load (pool s) B)
    < total_needed_size n + sizeof_BlockHeader + ALIGNMENT ->
  (length pre < fuel)%nat ->
  exists s',
    my_malloc fuel s n = Some (s', B + sizeof_BlockHeader)
    /\ load (pool s') B = mkBlockHeader (size (load (pool s) B)) false NULL
    /\ blocks_of s' bs
    /\ (forall x, size (load (pool s') x) = size (load (pool s) x))
    /\ free_list_of s' (pre ++ post)
    /\ free_list_head s' =
       match pre with
       | [] => next_free (load (pool s) B)
       | _ => free_list_head s
       end
    /\ (pre <> [] ->
        next_free (load (pool s') (List.last pre NULL))
        = next_free (load (pool s) B))
    /\ (forall x, x <> B -> x <> List.last pre NULL ->
        load (pool s') x = load (pool s) x).
Proof.
  intros R Hbs Hfl Hn Hsplit Hpre [Hle Hlt] Hfuel.
  destruct (select_first_fit _ _ _ _ _ _ _ _ R Hfl Hn Hsplit Hpre Hle Hfuel)
    as (bs0 & I & Hm).
  destruct (Z.leb_spec (total_needed_size n + sizeof_BlockHeader + ALIGNMENT)
              (size (load (pool s) B))) as [Hge | _]; [lia|].
  destruct (use_entire_block_inv _ _ _ _ pre B post n I Hsplit)
    as (I' & LB & Lsize & Lhead & Lprev & Lframe).
  eexists. split; [exact Hm|]. split; [exact LB|]. split.
  { unfold blocks_of. eapply path_ext; [|exact Hbs].
    intros x _. unfold block_after. rewrite Lsize. reflexivity. }
  split; [exact Lsize|]. split; [apply (inv_free_list _ _ _ _ I')|].
  split; [exact Lhead|]. split; [|exact Lframe].
  intros Hne. rewrite (Lprev Hne). reflexivity.
Qed.

(** C5. In a run, [my_malloc(n)] with [n > 0] hands out the first node of the
    free list, in link order from the head, whose size is at least
    [total_needed_size n]: the smaller nodes before it are passed, the block
    is marked allocated, and the pointer returned is the address right after
    its header. *)
Theorem first_fit_selection tr s fl pre B post n fuel :
  run tr s -> free_list_of s fl -> 0 < n ->
  fl = pre ++ B :: post ->
  (forall x, x ∈ pre -> size (load (pool s) x) < total_needed_size n) ->
  total_needed_size n <= size (load (pool s) B) ->
  (length pre < fuel)%nat ->
  exists s',
    my_malloc fuel s n = Some (s', B + sizeof_BlockHeader)
    /\ is_free (load (pool s) B) = true
    /\ is_free (load (pool s') B) = false.
Proof.
  intros R Hfl Hn Hsplit Hpre Hle Hfuel.
  destruct (select_first_fit _ _ _ _ _ _ _ _ R Hfl Hn Hsplit Hpre Hle Hfuel)
    as (bs & I & Hm).
  eexists. split; [exact Hm|]. split.
  - apply (inv_member _ _ _ _ I). rewrite Hsplit. apply elem_of_app. right.
    apply list_elem_of_here.
  - destruct (Z.leb_spec
                (total_needed_size n + sizeof_BlockHeader + ALIGNMENT)
                (size (load (pool s) B))) as [Hroom | Hroom].
    + destruct (split_block_inv _ _ _ _ pre B post n _ I Hsplit
                  (proj1 (needed_range n)) (needed_mod n) Hroom)
        as (bs1 & bs2 & _ & _ & LB & _).
      rewrite LB. reflexivity.
    + destruct (use_entire_block_inv _ _ _ _ pre B post n I Hsplit)
        as (_ & LB & _).
      rewrite LB. reflexivity.
Qed.

(** C6. In every state, [my_free(p)] changes nothing (the pool, every header
    and the head of the free list stay as they are) when [p] is [NULL], when
    the block derived from [p] lies outside the pool, and when that block is
    already marked free. *)
Theorem rejected_free_no_mutation s p :
  p = NULL \/ out_of_pool p
  \/ is_free (load (pool s) (wrap (p - sizeof_BlockHeader))) = true ->
  my_free s p = s.
Proof.
  intros H. apply my_free_rejected. tauto.
Qed.

(** C7, as the code has it. [my_malloc(0)] returns [NULL] in every state and
    leaves the allocator as [my_allocator_init] leaves it: unchanged when it
    was initialized before the call. *)
Theorem zero_size_rejection s fuel :
  my_malloc fuel s 0 = Some (my_allocator_init s, NULL)
  /\ (allocator_initialized s = true -> my_malloc fuel s 0 = Some (s, NULL)).
Proof.
  unfold my_malloc. simpl. split; [reflexivity|].
  intros Hi. rewrite (init_idempotent s Hi). reflexivity.
Qed.


(** C9. In a run, a pointer that [my_malloc] returns and that is not [NULL]
    is the start of a free block of the pool plus [sizeof(BlockHeader)]; when
    [memory_pool] is aligned it is a multiple of [ALIGNMENT]; and it lies
    inside the pool, [sizeof(BlockHeader)] bytes or more after its start and
    before its end. *)
Theorem handle_aligned_interior tr s fuel n s' p :
  run tr s -> my_malloc fuel s n = Some (s', p) -> p <> NULL ->
  memory_pool mod ALIGNMENT = 0 ->
  exists B bs, blocks_of s bs /\ B ∈ bs
    /\ is_free (load (pool s) B) = true
    /\ p = B + sizeof_BlockHeader
    /\ p mod ALIGNMENT = 0
    /\ memory_pool + sizeof_BlockHeader <= p < pool_end.
Proof.
  intros R Hm Hp Hbase. destruct (run_inv _ _ R) as (bs & fl & I).
  destruct (my_malloc_cases _ _ _ _ _ _ _ _ I Hm)
    as [(_ & -> & _) | (pre & c & post & Hn & Hfl & _ & _ & -> & _)];
    [contradiction|].
  destruct (found_node _ _ _ _ _ _ _ I Hfl) as (Hcb & Hcf & _).
  exists c, bs. split; [apply (inv_blocks _ _ _ _ I)|].
  split; [exact Hcb|]. split; [exact Hcf|]. split; [reflexivity|].
  pose proof (blocks_bounds _ _ _ _ I c Hcb) as Hb.
  pose proof (inv_min _ _ _ _ I c Hcb) as Hmin.
  pose proof alignment_range as HA.
  destruct ABI as [_ [Hh Hhm] _ _ _ _]. split.
  - unfold handle_of.
    replace (c + sizeof_BlockHeader)
      with (memory_pool + ((c - memory_pool) + sizeof_BlockHeader)) by lia.
    apply divides_add; [exact Hbase|].
    apply divides_add; [apply (inv_aligned _ _ _ _ I c Hcb) | exact Hhm].
  - unfold handle_of. lia.
Qed.


(** ** Further properties of [my_allocator_init] and [my_free] *)

(** X1. Calling [my_allocator_init] a second time changes nothing, whatever
    the state the first call started from. *)
Theorem init_twice s :
  my_allocator_init (my_allocator_init s) = my_allocator_init s.
Proof.
  destruct (allocator_initialized s) eqn:Hi.
  - rewrite (init_idempotent s Hi). apply init_idempotent. exact Hi.
  - apply init_idempotent. apply (init_loads s Hi).
Qed.

(** X2. In every state, freeing the same pointer twice leaves the allocator
    as the first [my_free] left it: when the first call is accepted the
    second finds [is_free] set, and when it is turned away so is the
    second. *)
Theorem my_free_twice s p :
  my_free (my_free s p) p = my_free s p.
Proof.
  unfold my_free at 2 3.
  destruct (Z.eqb_spec p NULL) as [Hp | Hp];
    [apply my_free_rejected; auto|].
  destruct (allocator_initialized s) eqn:Hi; simpl;
    [|apply my_free_rejected; auto].
  destruct (_ || _) eqn:Hb.
  { apply my_free_rejected. right. right. left. unfold out_of_pool.
    apply orb_prop in Hb as [Hb | Hb]; lia. }
  destruct (is_free (load (pool s) (wrap (p - sizeof_BlockHeader)))) eqn:Hf;
    [apply my_free_rejected; auto|].
  apply my_free_rejected. right. right. right. simpl. loads.
Qed.

(** X3. [my_free] never merges or resizes: in every state and for every
    pointer the [size] field at every address is what it was, so a list of
    blocks that tiles the pool before the call tiles it after. *)
Theorem my_free_keeps_sizes s p :
  (forall x, size (load (pool (my_free s p)) x) = size (load (pool s) x))
  /\ (forall bs, blocks_of s bs -> blocks_of (my_free s p) bs).
Proof.
  assert (Hsize : forall x,
            size (load (pool (my_free s p)) x) = size (load (pool s) x)).
  { intros x. unfold my_free.
    destruct (p =? NULL); [reflexivity|].
    destruct (allocator_initialized s); simpl; [|reflexivity].
    destruct (_ || _); [reflexivity|].
    destruct (is_free _); [reflexivity|]. simpl. loads. }
  split; [exact Hsize|].
  intros bs Hbs. unfold blocks_of. eapply path_ext; [|exact Hbs].
  intros x _. unfold block_after. rewrite Hsize. reflexivity.
Qed.

(** ** Freeing and allocating again *)

(** The block behind a pointer that [my_malloc] returned in a run. *)
Lemma handle_block tr s bs fl p :
  pool_inv tr s bs fl -> p ∈ handles tr -> p <> NULL ->
  p - sizeof_BlockHeader ∈ bs
  /\ handle_of (p - sizeof_BlockHeader) = p
  /\ wrap (p - sizeof_BlockHeader) = p - sizeof_BlockHeader.
Proof.
  intros I Hp Hp0.
  destruct (inv_handles _ _ _ _ I p Hp) as [-> | (a & Ha & ->)];
    [contradiction|].
  destruct (block_address _ _ _ _ a I Ha) as (_ & _ & Hw).
  unfold handle_of in *.
  replace (a + sizeof_BlockHeader - sizeof_BlockHeader) with a in * by lia.
  auto.
Qed.

(** X4. In a run, [my_free] of a pointer whose block is allocated pushes the
    block on the head of the free list: it is marked free, its [next_free] is
    the old head, the rest of the list follows it in the old order, and no
    other header changes. *)
Theorem free_pushes_on_head tr s fl p :
  run tr s -> free_list_of s fl ->
  p ∈ handles tr -> p <> NULL ->
  is_free (load (pool s) (p - sizeof_BlockHeader)) = false ->
  free_list_of (my_free s p) ((p - sizeof_BlockHeader) :: fl)
  /\ free_list_head (my_free s p) = p - sizeof_BlockHeader
  /\ load (pool (my_free s p)) (p - sizeof_BlockHeader) =
     mkBlockHeader (size (load (pool s) (p - sizeof_BlockHeader))) true
       (free_list_head s)
  /\ (forall x, x <> p - sizeof_BlockHeader ->
        load (pool (my_free s p)) x = load (pool s) x).
Proof.
  intros R Hfl Hp Hp0 Hf.
  destruct (run_inv _ _ R) as (bs & fl0 & I).
  rewrite <- (free_list_unique _ _ _ Hfl (inv_free_list _ _ _ _ I)) in I.
  destruct (handle_block _ _ _ _ p I Hp Hp0) as (Ha & Hh & Hw).
  set (a := p - sizeof_BlockHeader) in *.
  pose proof (my_free_inv _ _ _ _ a I Ha Hf) as I'.
  pose proof (blocks_bounds _ _ _ _ I a Ha) as Hb.
  pose proof (inv_min _ _ _ _ I a Ha) as Hmin.
  pose proof min_block_range as Hmb.
  destruct (my_free_loads s a) as (La & Lo & Lh & _);
    [apply (inv_init _ _ _ _ I) | rewrite Hh; exact Hp0
    | rewrite Hh; exact Hw | lia | exact Hf |].
  rewrite Hh in *.
  split; [apply (inv_free_list _ _ _ _ I')|]. auto.
Qed.

(** X5. In a run, once an allocated block is freed, a request that this
    block can hold is served from it: [my_malloc] returns the very pointer
    that was freed. *)
Theorem free_then_malloc_reuses tr s p n fuel :
  run tr s -> p ∈ handles tr -> p <> NULL ->
  is_free (load (pool s) (p - sizeof_BlockHeader)) = false ->
  0 < n ->
  total_needed_size n <= size (load (pool s) (p - sizeof_BlockHeader)) ->
  (0 < fuel)%nat ->
  exists s', my_malloc fuel (my_free s p) n = Some (s', p).
Proof.
  intros R Hp Hp0 Hf Hn Hle Hfuel.
  destruct (run_inv _ _ R) as (bs & fl & I).
  destruct (free_pushes_on_head _ _ _ p R (inv_free_list _ _ _ _ I)
              Hp Hp0 Hf) as (Hfl' & _ & La & _).
  destruct (handle_block _ _ _ _ p I Hp Hp0) as (_ & Hh & _).
  assert (R' : run (Deallocate p :: tr) (my_free s p)).
  { apply run_deallocate; [exact R | auto]. }
  destruct (select_first_fit _ _ _ [] (p - sizeof_BlockHeader) fl n fuel
              R' Hfl' Hn eq_refl) as (bs' & _ & Hm).
  - intros x Hx. inversion Hx.
  - rewrite La. simpl. exact Hle.
  - simpl. lia.
  - rewrite Hh in Hm. eexists. exact Hm.
Qed.

(** X6. In a run, freeing the pointer that [my_malloc(n)] has just returned
    and asking for [n] bytes again yields the same pointer. *)
Theorem malloc_free_malloc tr s n fuel s1 p :
  run tr s -> my_malloc fuel s n = Some (s1, p) -> p <> NULL ->
  exists s2, my_malloc fuel (my_free s1 p) n = Some (s2, p).
Proof.
  intros R Hm Hp0.
  destruct (run_inv _ _ R) as (bs & fl & I).
  assert (R1 : run (Allocate n p :: tr) s1)
    by (eapply run_allocate; eassumption).
  assert (Hfuel : (0 < fuel)%nat).
  { destruct fuel; [|lia]. exfalso. unfold my_malloc in Hm.
    destruct (n =? 0); [|discriminate]. injection Hm as _ E. congruence. }
  destruct (my_malloc_cases _ _ _ _ _ _ _ _ I Hm)
    as [(_ & -> & _) | (pre & c & post & Hn & Hfl & _ & Hc & -> & Hs1)];
    [contradiction|].
  assert (Hle : total_needed_size n <= size (load (pool s) c)).
  { unfold fits in Hc. apply andb_prop in Hc as [_ Hc]. lia. }
  assert (Hblock : is_free (load (pool s1) c) = false
                   /\ total_needed_size n <= size (load (pool s1) c)).
  { subst s1.
    destruct (Z.leb_spec
                (total_needed_size n + sizeof_BlockHeader + ALIGNMENT)
                (size (load (pool s) c))) as [Hroom | Hroom].
    - destruct (split_block_inv _ _ _ _ pre c post n _ I Hfl
                  (proj1 (needed_range n)) (needed_mod n) Hroom)
        as (bs1 & bs2 & _ & _ & LB & _).
      rewrite LB. simpl. split; [reflexivity | lia].
    - destruct (use_entire_block_inv _ _ _ _ pre c post n I Hfl)
        as (_ & LB & _).
      rewrite LB. simpl. split; [reflexivity | lia]. }
  destruct Hblock as [Hf1 Hle1].
  destruct (run_inv _ _ R1) as (bs1 & fl1 & I1).
  destruct (free_pushes_on_head _ _ _ (handle_of c) R1
              (inv_free_list _ _ _ _ I1)) as (Hfl' & _ & La & _).
  { simpl. apply list_elem_of_here. }
  { exact Hp0. }
  { unfold handle_of.
    replace (c + sizeof_BlockHeader - sizeof_BlockHeader) with c by lia.
    exact Hf1. }
  unfold handle_of in *.
  replace (c + sizeof_BlockHeader - sizeof_BlockHeader) with c in * by lia.
  assert (R' : run (Deallocate (c + sizeof_BlockHeader) :: Allocate n
                      (c + sizeof_BlockHeader) :: tr)
                 (my_free s1 (c + sizeof_BlockHeader))).
  { apply run_deallocate; [exact R1|]. right. right. simpl.
    apply list_elem_of_here. }
  unfold my_malloc.
  pose proof (run_inv _ _ R') as (bs' & fl'' & I').
  rewrite (init_idempotent _ (inv_init _ _ _ _ I')).
  destruct (Z.eqb_spec n 0) as [|_]; [contradiction|].
  rewrite <- (free_list_unique _ _ _ Hfl' (inv_free_list _ _ _ _ I')) in I'.
  replace fuel with (length (@nil Z) + S (fuel - 1))%nat by (simpl; lia).
  rewrite (first_fit_found _ _ _ _ [] c fl1 _ _ I' eq_refl).
  - unfold handle_of. eauto.
  - intros x Hx. inversion Hx.
  - unfold fits. rewrite La. simpl.
    destruct (Z.leb_spec (total_needed_size n) (size (load (pool s1) c)));
      [reflexivity | lia].
  - apply (needed_range n).
Qed.

(** ** Sizes *)

Lemma round_up_ge x :
  x <= (x + ALIGNMENT - 1) / ALIGNMENT * ALIGNMENT.
Proof.
  pose proof alignment_range as HA.
  pose proof (Z.mod_pos_bound (x + ALIGNMENT - 1) ALIGNMENT ltac:(lia)).
  pose proof (Z.div_mod (x + ALIGNMENT - 1) ALIGNMENT ltac:(lia)). lia.
Qed.

(** X7. In a run, when [n + sizeof(BlockHeader) + ALIGNMENT] does not
    overflow [size_t], the block behind a pointer returned by [my_malloc(n)]
    is marked allocated and holds at least [n] bytes after its header, all of
    them inside the pool. *)
Theorem malloc_block_holds_request tr s fuel n s' p :
  run tr s -> my_malloc fuel s n = Some (s', p) -> p <> NULL ->
  0 < n -> n + sizeof_BlockHeader + ALIGNMENT <= 2 ^ size_bits ->
  is_free (load (pool s') (p - sizeof_BlockHeader)) = false
  /\ n + sizeof_BlockHeader <= size (load (pool s') (p - sizeof_BlockHeader))
  /\ memory_pool + sizeof_BlockHeader <= p
  /\ p + n <= pool_end.
Proof.
  intros R Hm Hp0 Hn Hov. destruct (run_inv _ _ R) as (bs & fl & I).
  destruct (my_malloc_cases _ _ _ _ _ _ _ _ I Hm)
    as [(_ & -> & _) | (pre & c & post & _ & Hfl & _ & Hc & -> & ->)];
    [contradiction|].
  destruct (found_node _ _ _ _ _ _ _ I Hfl) as (Hcb & _).
  pose proof (blocks_bounds _ _ _ _ I c Hcb) as Hb.
  assert (Hle : total_needed_size n <= size (load (pool s) c)).
  { unfold fits in Hc. apply andb_prop in Hc as [_ Hc]. lia. }
  assert (Hneed : n + sizeof_BlockHeader <= total_needed_size n).
  { rewrite needed_no_overflow by lia.
    pose proof (round_up_ge (n + sizeof_BlockHeader)).
    lia. }
  unfold handle_of.
  replace (c + sizeof_BlockHeader - sizeof_BlockHeader) with c by lia.
  destruct (Z.leb_spec
              (total_needed_size n + sizeof_BlockHeader + ALIGNMENT)
              (size (load (pool s) c))) as [Hroom | Hroom].
  - destruct (split_block_inv _ _ _ _ pre c post n _ I Hfl
                (proj1 (needed_range n)) (needed_mod n) Hroom)
      as (bs1 & bs2 & _ & _ & LB & _).
    rewrite LB. simpl. repeat split; lia.
  - destruct (use_entire_block_inv _ _ _ _ pre c post n I Hfl)
      as (_ & LB & _).
    rewrite LB. simpl. repeat split; lia.
Qed.

(** For a request so large that [size + sizeof(BlockHeader)] passes the top
    of [size_t], the sum wraps to less than a header and the search looks
    for a block of the smallest size. *)
Lemma needed_wraps n :
  2 ^ size_bits - sizeof_BlockHeader <= n < 2 ^ size_bits ->
  total_needed_size n = sizeof_BlockHeader + ALIGNMENT.
Proof.
  intros Hn. pose proof min_block_range as Hmb.
  pose proof alignment_range as HA.
  destruct ABI as [_ [Hh Hhm] _ _ _ _].
  unfold total_needed_size.
  rewrite (wrap_small (sizeof_BlockHeader + ALIGNMENT)) by lia.
  assert (Hw : wrap (n + sizeof_BlockHeader)
               = n + sizeof_BlockHeader - 2 ^ size_bits).
  { unfold wrap. symmetry. apply (Z.mod_unique_pos _ _ 1); lia. }
  rewrite Hw. set (x := n + sizeof_BlockHeader - 2 ^ size_bits).
  assert (Hx : 0 <= x < sizeof_BlockHeader) by (unfold x; lia).
  rewrite ALIGN_round_up by lia.
  assert (Hq : (x + ALIGNMENT - 1) / ALIGNMENT
               < sizeof_BlockHeader / ALIGNMENT + 1).
  { apply Z.div_lt_upper_bound; [lia|].
    pose proof (Z.div_mod sizeof_BlockHeader ALIGNMENT ltac:(lia)). lia. }
  pose proof (Z.div_mod sizeof_BlockHeader ALIGNMENT ltac:(lia)) as Hd.
  destruct (Z.ltb_spec ((x + ALIGNMENT - 1) / ALIGNMENT * ALIGNMENT)
              (sizeof_BlockHeader + ALIGNMENT)); [reflexivity | nia].
Qed.

(** X8. In a run, a request within [sizeof(BlockHeader)] of the top of
    [size_t] is not refused: the size computation wraps around, the first
    node of the free list fits, and [my_malloc] returns its handle although
    the whole pool is smaller than the request. *)
Theorem huge_request_is_served tr s n fuel :
  run tr s -> free_list_head s <> NULL ->
  2 ^ size_bits - sizeof_BlockHeader <= n < 2 ^ size_bits ->
  (0 < fuel)%nat ->
  POOL_SIZE < n
  /\ exists s',
       my_malloc fuel s n = Some (s', free_list_head s + sizeof_BlockHeader).
Proof.
  intros R Hhead Hn Hfuel. destruct (run_inv _ _ R) as (bs & fl & I).
  pose proof min_block_range as Hmb. pose proof alignment_range as HA.
  destruct (inv_free_list _ _ _ _ I) as [Hp Hnull].
  destruct fl as [|c post].
  { apply path_nil_inv in Hp. contradiction. }
  pose proof (path_cons_inv _ _ _ _ _ Hp) as [-> _].
  split.
  { destruct ABI as [_ _ _ _ _ Hsmall]. lia. }
  destruct (select_first_fit _ _ _ [] (free_list_head s) post n fuel R
              (inv_free_list _ _ _ _ I) ltac:(lia) eq_refl)
    as (bs' & _ & Hm).
  - intros x Hx. inversion Hx.
  - rewrite needed_wraps by exact Hn.
    apply (inv_min _ _ _ _ I). apply (inv_member _ _ _ _ I).
    apply list_elem_of_here.
  - simpl. lia.
  - eexists. exact Hm.
Qed.

Lemma path_next nxt a l e x :
  path nxt a l e -> x ∈ l -> nxt x ∈ l \/ nxt x = e.
Proof.
  induction 1 as [a | a l e H IH]; intros Hx; [inversion Hx|].
  apply elem_of_cons in Hx as [-> | Hx].
  - destruct l as [|y l].
    + right. apply path_nil_inv in H. exact H.
    + left. apply path_cons_inv in H as [-> _].
      apply list_elem_of_further. apply list_elem_of_here.
  - destruct (IH Hx) as [Hl | He]; [left | right; exact He].
    apply list_elem_of_further. exact Hl.
Qed.

(** X9. After every call of a run each block of the pool is at least one
    header and one alignment unit long and starts a multiple of [ALIGNMENT]
    after the start of the pool; when [POOL_SIZE] is a multiple of
    [ALIGNMENT], so is every block size. *)
Theorem block_layout_invariant tr s :
  run tr s ->
  exists bs, blocks_of s bs
    /\ forall a, a ∈ bs ->
         sizeof_BlockHeader + ALIGNMENT <= size (load (pool s) a)
         /\ (a - memory_pool) mod ALIGNMENT = 0
         /\ (POOL_SIZE mod ALIGNMENT = 0 ->
             size (load (pool s) a) mod ALIGNMENT = 0).
Proof.
  intros R. destruct (run_inv _ _ R) as (bs & fl & I). exists bs.
  split; [apply (inv_blocks _ _ _ _ I)|]. intros a Ha.
  split; [apply (inv_min _ _ _ _ I a Ha)|].
  split; [apply (inv_aligned _ _ _ _ I a Ha)|]. intros Hpool.
  pose proof alignment_range as HA.
  assert (Hnext : (block_after (pool s) a - memory_pool) mod ALIGNMENT = 0).
  { destruct (path_next _ _ _ _ a (inv_blocks _ _ _ _ I) Ha) as [Hb | He].
    - apply (inv_aligned _ _ _ _ I _ Hb).
    - rewrite He. unfold pool_end.
      replace (memory_pool + POOL_SIZE - memory_pool) with POOL_SIZE by lia.
      exact Hpool. }
  pose proof (inv_aligned _ _ _ _ I a Ha) as Hoff.
  unfold block_after in Hnext.
  replace (size (load (pool s) a))
    with ((a + size (load (pool s) a) - memory_pool) - (a - memory_pool))
    by lia.
  rewrite Zminus_mod, Hnext, Hoff. apply Z.mod_0_l. lia.
Qed.

(** ** Live allocations *)

(** The pointers of a run that are in the hands of the caller: returned by
    [my_malloc], not [NULL], and not passed to [my_free] since. *)
Fixpoint live (tr : list call) : list Z :=
  match tr with
  | [] => []
  | Init :: t => live t
  | Allocate _ p :: t => if p =? NULL then live t else p :: live t
  | Deallocate p :: t => filter (fun q => q <> p) (live t)
  end.

Lemma malloc_frame tr s bs fl fuel n s' p a :
  pool_inv tr s bs fl -> my_malloc fuel s n = Some (s', p) ->
  a ∈ bs -> is_free (load (pool s) a) = false ->
  load (pool s') a = load (pool s) a /\ p <> handle_of a.
Proof.
  intros I Hm Ha Hf.
  destruct (my_malloc_cases _ _ _ _ _ _ _ _ I Hm)
    as [(-> & -> & _) | (pre & c & post & _ & Hfl & _ & Hc & -> & ->)].
  { split; [reflexivity|].
    destruct (block_address _ _ _ _ a I Ha) as (Hpos & _).
    destruct ABI as [_ [Hh _] _ _ _ _]. unfold handle_of, NULL. lia. }
  destruct (found_node _ _ _ _ _ _ _ I Hfl)
    as (Hcb & Hcf & Hc0 & _ & Hp0 & Hp1 & _).
  assert (Hac : a <> c) by (intros ->; congruence).
  assert (Hap : a <> List.last pre NULL).
  { destruct pre as [|y pre].
    - rewrite (Hp0 eq_refl).
      destruct (block_address _ _ _ _ a I Ha) as (Hpos & _).
      unfold NULL. lia.
    - destruct (Hp1 ltac:(discriminate)) as (_ & Hin & _).
      intros E. rewrite <- E in Hin.
      assert (Hafl : a ∈ fl).
      { rewrite Hfl. apply elem_of_app. left. exact Hin. }
      apply (inv_member _ _ _ _ I) in Hafl. destruct Hafl. congruence. }
  split; [|unfold handle_of; lia].
  destruct (Z.leb_spec
              (total_needed_size n + sizeof_BlockHeader + ALIGNMENT)
              (size (load (pool s) c))) as [Hroom | Hroom].
  - destruct (split_block_inv _ _ _ _ pre c post n _ I Hfl
                (proj1 (needed_range n)) (needed_mod n) Hroom)
      as (bs1 & bs2 & Hbs & I' & _ & _ & _ & _ & Lframe).
    apply Lframe; try assumption.
    pose proof (blocks_NoDup _ _ _ _ I') as Hnd.
    apply NoDup_app in Hnd as (_ & Hd & Hnd).
    apply NoDup_cons in Hnd as (_ & Hnd).
    apply NoDup_cons in Hnd as (Hnew & _).
    intros ->. rewrite Hbs in Ha. apply elem_of_app in Ha as [Ha | Ha].
    + apply (Hd _ Ha). apply list_elem_of_further. apply list_elem_of_here.
    + apply elem_of_cons in Ha as [Ha | Ha]; [congruence | contradiction].
  - destruct (use_entire_block_inv _ _ _ _ pre c post n I Hfl)
      as (_ & _ & _ & _ & _ & Lframe).
    apply Lframe; assumption.
Qed.

(** X10. In a run, [my_malloc] leaves the header of every allocated block as
    it is, and the pointer it returns is never one whose block is
    allocated. *)
Theorem malloc_keeps_allocated tr s fuel n s' p q :
  run tr s -> my_malloc fuel s n = Some (s', p) ->
  q ∈ handles tr -> q <> NULL ->
  is_free (load (pool s) (q - sizeof_BlockHeader)) = false ->
  load (pool s') (q - sizeof_BlockHeader)
  = load (pool s) (q - sizeof_BlockHeader)
  /\ p <> q.
Proof.
  intros R Hm Hq Hq0 Hf. destruct (run_inv _ _ R) as (bs & fl & I).
  destruct (handle_block _ _ _ _ q I Hq Hq0) as (Ha & Hh & _).
  rewrite <- Hh at 3.
  apply (malloc_frame _ _ _ _ _ _ _ _ _ I Hm Ha Hf).
Qed.

Lemma live_handles tr p : p ∈ live tr -> p ∈ handles tr /\ p <> NULL.
Proof.
  induction tr as [|[|n q|q] tr IH]; simpl; intros Hp.
  - inversion Hp.
  - auto.
  - destruct (Z.eqb_spec q NULL) as [Hq | Hq].
    + destruct (IH Hp). split; [apply list_elem_of_further|]; assumption.
    + apply elem_of_cons in Hp as [-> | Hp].
      * split; [apply list_elem_of_here | exact Hq].
      * destruct (IH Hp). split; [apply list_elem_of_further|]; assumption.
  - apply list_elem_of_filter in Hp as [_ Hp]. auto.
Qed.

Lemma live_inv tr s :
  run tr s ->
  NoDup (live tr)
  /\ forall p, p ∈ live tr ->
       is_free (load (pool s) (p - sizeof_BlockHeader)) = false.
Proof.
  induction 1 as [| tr s R IH | tr s fuel n s' p R IH Hm | tr s p R IH Hp].
  - split; [constructor | intros p Hp; inversion Hp].
  - destruct (run_inv _ _ R) as (bs & fl & I).
    rewrite (init_idempotent s (inv_init _ _ _ _ I)). exact IH.
  - destruct IH as [Hnd Hlive]. destruct (run_inv _ _ R) as (bs & fl & I).
    assert (Hold : forall q, q ∈ live tr ->
              is_free (load (pool s') (q - sizeof_BlockHeader)) = false
              /\ p <> q).
    { intros q Hq. destruct (live_handles _ _ Hq) as [Hqh Hq0].
      destruct (malloc_keeps_allocated _ _ _ _ _ _ q R Hm Hqh Hq0
                  (Hlive q Hq)) as [E Hne].
      rewrite E. split; [apply Hlive; exact Hq | exact Hne]. }
    simpl. destruct (Z.eqb_spec p NULL) as [Hp0 | Hp0].
    + split; [exact Hnd|]. intros q Hq. apply Hold. exact Hq.
    + split.
      * apply NoDup_cons. split; [|exact Hnd].
        intros Hq. apply (Hold p Hq). reflexivity.
      * intros q Hq. apply elem_of_cons in Hq as [-> | Hq];
          [|apply Hold; exact Hq].
        destruct (my_malloc_cases _ _ _ _ _ _ _ _ I Hm)
          as [(_ & -> & _) | (pre & c & post & _ & Hfl & _ & _ & -> & ->)];
          [contradiction|].
        unfold handle_of.
        replace (c + sizeof_BlockHeader - sizeof_BlockHeader) with c by lia.
        destruct (Z.leb_spec
                    (total_needed_size n + sizeof_BlockHeader + ALIGNMENT)
                    (size (load (pool s) c))) as [Hroom | Hroom].
        -- destruct (split_block_inv _ _ _ _ pre c post n _ I Hfl
                       (proj1 (needed_range n)) (needed_mod n) Hroom)
             as (bs1 & bs2 & _ & _ & LB & _).
           rewrite LB. reflexivity.
        -- destruct (use_entire_block_inv _ _ _ _ pre c post n I Hfl)
             as (_ & LB & _).
           rewrite LB. reflexivity.
  - destruct IH as [Hnd Hlive]. destruct (run_inv _ _ R) as (bs & fl & I).
    simpl. split; [apply NoDup_filter; exact Hnd|].
    intros q Hq. apply list_elem_of_filter in Hq as [Hqp Hq].
    assert (Hsame : my_free s p = s ->
              is_free (load (pool (my_free s p)) (q - sizeof_BlockHeader))
              = false).
    { intros ->. apply Hlive. exact Hq. }
    destruct Hp as [Hp | [Hp | Hp]];
      [apply Hsame, my_free_rejected; auto
      |apply Hsame, my_free_rejected; auto|].
    destruct (Z.eq_dec p NULL) as [Hp0 | Hp0];
      [apply Hsame, my_free_rejected; auto|].
    destruct (handle_block _ _ _ _ p I Hp Hp0) as (_ & _ & Hw).
    destruct (is_free (load (pool s) (p - sizeof_BlockHeader))) eqn:Hpf.
    { apply Hsame, my_free_rejected. right. right. right.
      rewrite Hw. exact Hpf. }
    destruct (free_pushes_on_head _ _ _ p R (inv_free_list _ _ _ _ I)
                Hp Hp0 Hpf) as (_ & _ & _ & Lo).
    rewrite Lo by lia. apply Hlive. exact Hq.
Qed.

(** X11. In a run, the pointers in the hands of the caller are pairwise
    different, each is the handle of a block that is marked allocated, and
    the blocks of two of them share no byte: [my_malloc] never hands out
    memory that is still in use. *)
Theorem no_double_allocation tr s :
  run tr s ->
  NoDup (live tr)
  /\ (forall p, p ∈ live tr ->
        is_free (load (pool s) (p - sizeof_BlockHeader)) = false
        /\ memory_pool + sizeof_BlockHeader <= p
        /\ p - sizeof_BlockHeader
           + size (load (pool s) (p - sizeof_BlockHeader)) <= pool_end)
  /\ (forall p q, p ∈ live tr -> q ∈ live tr -> p <> q ->
        p - sizeof_BlockHeader
          + size (load (pool s) (p - sizeof_BlockHeader))
          <= q - sizeof_BlockHeader
        \/ q - sizeof_BlockHeader
             + size (load (pool s) (q - sizeof_BlockHeader))
             <= p - sizeof_BlockHeader).
Proof.
  intros R. destruct (live_inv _ _ R) as [Hnd Hlive].
  destruct (run_inv _ _ R) as (bs & fl & I).
  assert (Hblock : forall p, p ∈ live tr -> p - sizeof_BlockHeader ∈ bs).
  { intros p Hp. destruct (live_handles _ _ Hp) as [Hh Hp0].
    apply (handle_block _ _ _ _ p I Hh Hp0). }
  split; [exact Hnd|]. split.
  - intros p Hp. split; [apply Hlive; exact Hp|].
    pose proof (blocks_bounds _ _ _ _ I _ (Hblock p Hp)). lia.
  - intros p q Hp Hq Hne.
    pose proof (Hblock p Hp) as Ha. pose proof (Hblock q Hq) as Hb.
    destruct (blocks_around _ _ _ _ _ (inv_blocks _ _ _ _ I)
                (blocks_forward _ _ _ _ I) Ha)
      as (bs1 & bs2 & Hbs & _ & _ & Hlt1 & Hlt2).
    rewrite Hbs in Hb. apply elem_of_app in Hb as [Hb | Hb].
    + right. apply (Hlt1 _ Hb).
    + apply elem_of_cons in Hb as [Hb | Hb]; [lia|].
      left. apply (Hlt2 _ Hb).
Qed.

(** ** [dump_memory_map]

    The two traversals of [dump_memory_map], with one value per line that
    the code prints: a block of the pool walk, a node of the free-list walk,
    the total, or one of the error messages that end a walk.  The banners
    are left out.  [count] is the C [int] of the code, here an integer. *)

Inductive dump_line :=
| BlockLine (addr sz : Z) (free : bool) (next : option Z)
| ZeroSizeError (addr : Z)
| OverrunError
| TotalLine (total : Z)
| FreeLine (index addr sz next : Z)
| OutsideError (addr : Z)
| AllocatedError (addr : Z)
| TooLongError
| EmptyListLine.

(** The line printed for the block at [a]; [NextFree] is shown for free
    blocks only. *)
Definition block_line (m : gmap Z BlockHeader) (a : Z) : dump_line :=
  let h := load m a in
  BlockLine a (size h) (is_free h)
    (if is_free h then Some (next_free h) else None).

Definition free_line (m : gmap Z BlockHeader) (index a : Z) : dump_line :=
  let h := load m a in FreeLine index a (size h) (next_free h).

(** The first loop: [while (current_block < pool_end &&
    total_bytes_mapped < POOL_SIZE)]. *)
Fixpoint dump_blocks (fuel : nat) (m : gmap Z BlockHeader)
    (current_block total_bytes_mapped : Z) : option (list dump_line * Z) :=
  match fuel with
  | O => None
  | S fuel' =>
      if (current_block <? pool_end) && (total_bytes_mapped <? POOL_SIZE)
      then
        let line := block_line m current_block in
        if size (load m current_block) =? 0
        then Some ([line; ZeroSizeError current_block], total_bytes_mapped)
        else
          let total := wrap (total_bytes_mapped
                             + size (load m current_block)) in
          let next := wrap (current_block + size (load m current_block)) in
          if POOL_SIZE <? total then Some ([line; OverrunError], total)
          else
            match dump_blocks fuel' m next total with
            | Some (lines, t) => Some (line :: lines, t)
            | None => None
            end
      else Some ([], total_bytes_mapped)
  end.

(** The bound of the safety break of the second loop. *)
Definition free_list_bound : Z :=
  wrap (POOL_SIZE / wrap (sizeof_BlockHeader + ALIGNMENT) + 5).

(** The second loop: [while (free_block != NULL)]. *)
Fixpoint dump_free_list (fuel : nat) (m : gmap Z BlockHeader)
    (free_block count : Z) : option (list dump_line * Z) :=
  match fuel with
  | O => None
  | S fuel' =>
      if free_block =? NULL then Some ([], count)
      else
        let line := free_line m count free_block in
        let count := count + 1 in
        if (free_block <? memory_pool) || (pool_end <=? free_block)
        then Some ([line; OutsideError free_block], count)
        else if negb (is_free (load m free_block))
        then Some ([line; AllocatedError free_block], count)
        else if free_list_bound <? count
        then Some ([line; TooLongError], count)
        else
          match dump_free_list fuel' m (next_free (load m free_block)) count
          with
          | Some (lines, c) => Some (line :: lines, c)
          | None => None
          end
  end.

Definition dump_memory_map (fuel : nat) (s : allocator)
  : option (allocator * list dump_line) :=
  let s := my_allocator_init s in
  match dump_blocks fuel (pool s) memory_pool 0 with
  | None => None
  | Some (blocks, total) =>
      match dump_free_list fuel (pool s) (free_list_head s) 0 with
      | None => None
      | Some (nodes, count) =>
          Some (s, blocks ++ [TotalLine total] ++ nodes
                   ++ (if count =? 0 then [EmptyListLine] else []))
      end
  end.

(** The lines of the free-list walk for the nodes [fl], numbered from
    [index]. *)
Fixpoint free_lines (m : gmap Z BlockHeader) (index : Z) (fl : list Z)
  : list dump_line :=
  match fl with
  | [] => []
  | a :: fl' => free_line m index a :: free_lines m (index + 1) fl'
  end.

Lemma dump_blocks_walk m bs : forall a k,
  path (block_after m) a bs pool_end ->
  (forall x, x ∈ bs ->
     0 < size (load m x) /\ memory_pool <= x
     /\ x + size (load m x) <= pool_end) ->
  memory_pool <= a ->
  dump_blocks (length bs + S k) m a (a - memory_pool)
  = Some (map (block_line m) bs, POOL_SIZE).
Proof.
  destruct ABI as [_ _ Hbase Hfits _ _].
  assert (Hpe : pool_end = memory_pool + POOL_SIZE) by reflexivity.
  induction bs as [|b bs IH]; intros a k Hp Hb Ha.
  - apply path_nil_inv in Hp. subst a. simpl.
    rewrite Z.ltb_irrefl. simpl. f_equal. f_equal. lia.
  - apply path_cons_inv in Hp as [-> Hp].
    destruct (Hb a (list_elem_of_here _ _)) as (Hsz & Hlo & Hhi).
    change (length (a :: bs) + S k)%nat with (S (length bs + S k)).
    cbn [dump_blocks].
    destruct (Z.ltb_spec a pool_end); [|lia].
    destruct (Z.ltb_spec (a - memory_pool) POOL_SIZE); [|lia]. simpl.
    destruct (Z.eqb_spec (size (load m a)) 0); [lia|].
    rewrite !wrap_small by lia.
    destruct (Z.ltb_spec POOL_SIZE (a - memory_pool + size (load m a)));
      [lia|].
    replace (a - memory_pool + size (load m a))
      with (a + size (load m a) - memory_pool) by lia.
    unfold block_after in Hp.
    rewrite (IH _ k Hp); [reflexivity | | lia].
    intros x Hx. apply Hb. apply list_elem_of_further. exact Hx.
Qed.

Lemma dump_free_list_walk m fl : forall a count k,
  path (link m) a fl NULL -> NULL ∉ fl ->
  (forall x, x ∈ fl ->
     memory_pool <= x < pool_end /\ is_free (load m x) = true) ->
  count + Z.of_nat (length fl) <= free_list_bound ->
  dump_free_list (length fl + S k) m a count
  = Some (free_lines m count fl, count + Z.of_nat (length fl)).
Proof.
  induction fl as [|b fl IH]; intros a count k Hp Hn Hb Hc.
  - apply path_nil_inv in Hp. subst a. simpl. f_equal. f_equal. lia.
  - apply path_cons_inv in Hp as [-> Hp].
    apply not_elem_of_cons in Hn as [Ha Hn].
    destruct (Hb a (list_elem_of_here _ _)) as (Hin & Hf).
    change (length (a :: fl) + S k)%nat with (S (length fl + S k)).
    cbn [dump_free_list].
    destruct (Z.eqb_spec a NULL); [congruence|].
    destruct (Z.ltb_spec a memory_pool); [lia|].
    destruct (Z.leb_spec pool_end a); [lia|]. simpl.
    rewrite Hf. simpl.
    change (length (a :: fl)) with (S (length fl)) in Hc.
    destruct (Z.ltb_spec free_list_bound (count + 1)); [lia|].
    unfold link in Hp. rewrite (IH _ (count + 1) k Hp Hn); [|auto|lia].
    + simpl. f_equal. f_equal. lia.
    + intros x Hx. apply Hb. apply list_elem_of_further. exact Hx.
Qed.

Lemma total_size_min m (bs : list Z) :
  (forall x, x ∈ bs ->
     sizeof_BlockHeader + ALIGNMENT <= size (load m x)) ->
  Z.of_nat (length bs) * (sizeof_BlockHeader + ALIGNMENT)
  <= total_size m bs.
Proof.
  induction bs as [|a bs IH]; intros H; simpl; [lia|].
  pose proof (H a (list_elem_of_here _ _)).
  assert (forall x, x ∈ bs ->
            sizeof_BlockHeader + ALIGNMENT <= size (load m x)).
  { intros x Hx. apply H. apply list_elem_of_further. exact Hx. }
  specialize (IH H1). lia.
Qed.

(** X12. On a state of a run, when the bound of the safety break is within
    [size_t], [dump_memory_map] changes nothing and prints no error: one line
    per block in address order, a total of [POOL_SIZE] bytes, and one line
    per node of the free list in link order (or the note that the list is
    empty). *)
Theorem dump_reports_layout tr s :
  run tr s ->
  POOL_SIZE / (sizeof_BlockHeader + ALIGNMENT) + 5 < 2 ^ size_bits ->
  exists bs fl, blocks_of s bs /\ free_list_of s fl
    /\ forall fuel, (length bs < fuel)%nat ->
         dump_memory_map fuel s
         = Some (s, map (block_line (pool s)) bs
                    ++ [TotalLine POOL_SIZE]
                    ++ free_lines (pool s) 0 fl
                    ++ match fl with [] => [EmptyListLine] | _ => [] end).
Proof.
  intros R Hbound. destruct (run_inv _ _ R) as (bs & fl & I).
  exists bs, fl. split; [apply (inv_blocks _ _ _ _ I)|].
  split; [apply (inv_free_list _ _ _ _ I)|]. intros fuel Hfuel.
  pose proof min_block_range as Hmb.
  assert (Hlen : (length fl <= length bs)%nat).
  { apply submseteq_length. apply NoDup_submseteq.
    - apply (inv_nodup _ _ _ _ I).
    - intros a Ha. apply (inv_member _ _ _ _ I) in Ha. tauto. }
  assert (Hcount : Z.of_nat (length bs)
                   <= POOL_SIZE / (sizeof_BlockHeader + ALIGNMENT)).
  { apply Z.div_le_lower_bound; [lia|].
    pose proof (total_size_min (pool s) bs (inv_min _ _ _ _ I)) as Ht.
    pose proof (path_total _ _ _ _ (inv_blocks _ _ _ _ I)) as Hs.
    unfold pool_end in Hs. lia. }
  assert (Hfb : free_list_bound
                = POOL_SIZE / (sizeof_BlockHeader + ALIGNMENT) + 5).
  { unfold free_list_bound.
    rewrite (wrap_small (sizeof_BlockHeader + ALIGNMENT)) by lia.
    apply wrap_small. lia. }
  unfold dump_memory_map.
  rewrite (init_idempotent s (inv_init _ _ _ _ I)).
  replace 0 with (memory_pool - memory_pool) at 1 by lia.
  replace fuel with (length bs + S (fuel - length bs - 1))%nat at 1 by lia.
  rewrite (dump_blocks_walk (pool s) bs _ _ (inv_blocks _ _ _ _ I));
    [| |lia].
  2:{ intros x Hx. pose proof (inv_min _ _ _ _ I x Hx).
      pose proof (blocks_bounds _ _ _ _ I x Hx). lia. }
  destruct (inv_free_list _ _ _ _ I) as [Hp Hn].
  replace fuel with (length fl + S (fuel - length fl - 1))%nat by lia.
  rewrite (dump_free_list_walk (pool s) fl _ 0 _ Hp Hn); [| |lia].
  2:{ intros x Hx. apply (inv_member _ _ _ _ I) in Hx as [Hx Hf].
      pose proof (inv_min _ _ _ _ I x Hx).
      pose proof (blocks_bounds _ _ _ _ I x Hx). split; [lia | exact Hf]. }
  do 4 f_equal. destruct fl; reflexivity.
Qed.

Lemma dump_free_list_stops m : forall fuel a count,
  0 <= count <= free_list_bound ->
  free_list_bound + 1 - count <= Z.of_nat fuel -> (0 < fuel)%nat ->
  exists lines c, dump_free_list fuel m a count = Some (lines, c)
                  /\ c <= free_list_bound + 1.
Proof.
  assert (Hb : 0 <= free_list_bound) by apply wrap_range.
  induction fuel as [|fuel IH]; intros a count Hc Hf Hpos; [lia|].
  cbn [dump_free_list].
  destruct (a =? NULL); [eexists _, _; split; [reflexivity | lia]|].
  destruct (_ || _); [eexists _, _; split; [reflexivity | lia]|].
  destruct (negb _); [eexists _, _; split; [reflexivity | lia]|].
  destruct (Z.ltb_spec free_list_bound (count + 1));
    [eexists _, _; split; [reflexivity | lia]|].
  destruct (IH (next_free (load m a)) (count + 1)) as (ls & c & E & Hle);
    [lia | lia | lia |].
  rewrite E. eexists _, _. split; [reflexivity | exact Hle].
Qed.

(** X13. In every state, whatever the links hold, the free-list walk of
    [dump_memory_map] ends: no more than [free_list_bound + 1] nodes are
    printed, so a cyclic or corrupted list cannot keep it in the loop. *)
Theorem dump_free_list_terminates m head fuel :
  free_list_bound + 1 <= Z.of_nat fuel ->
  exists lines count,
    dump_free_list fuel m head 0 = Some (lines, count)
    /\ count <= free_list_bound + 1.
Proof.
  intros Hfuel. pose proof (wrap_range
    (POOL_SIZE / wrap (sizeof_BlockHeader + ALIGNMENT) + 5)) as Hb.
  fold free_list_bound in Hb.
  apply dump_free_list_stops; lia.
Qed.

End Allocator.

(** ** An LP64 build with a pool of 1 MiB

    [size_t] and pointers of 64 bits, [sizeof(void* ) = 8],
    [sizeof(BlockHeader) = 24], [POOL_SIZE = 1024 * 1024], and [memory_pool]
    at address 4096.  The run below is the start of the driver in [main]:
    three allocations, then the second one is freed. *)

Definition lp64_init : allocator := my_allocator_init 1048576 4096 boot.

(** [p1 = my_malloc(100)]: 128 bytes are cut from the block at 4096. *)
Definition after_p1 : allocator := split_block 64 lp64_init 128 4096 NULL.

(** [p2 = my_malloc(200)]: 224 bytes are cut from the block at 4224. *)
Definition after_p2 : allocator := split_block 64 after_p1 224 4224 NULL.

(** [p3 = my_malloc(50)]: 80 bytes are cut from the block at 4448. *)
Definition after_p3 : allocator := split_block 64 after_p2 80 4448 NULL.

(** [my_free(p2)]. *)
Definition after_free_p2 : allocator :=
  my_free 64 24 1048576 4096 after_p3 4248.

Definition driver_calls : list call :=
  [Deallocate 4248; Allocate 50 4472; Allocate 200 4248; Allocate 100 4120].

Lemma lp64_abi : abi_ok 64 8 24 1048576 4096.
Proof.
  constructor; try lia.
  - exists 3. split; [lia | reflexivity].
  - split; [lia | reflexivity].
Qed.

Lemma path_cons_eq nxt a x l b :
  x = a -> path nxt (nxt a) l b -> path nxt a (x :: l) b.
Proof. intros ->. apply path_cons. Qed.

Lemma path_nil_eq nxt a b : a = b -> path nxt a [] b.
Proof. intros ->. apply path_nil. Qed.

Ltac walk :=
  repeat first
    [ apply path_nil_eq; vm_compute; reflexivity
    | apply path_cons_eq; [vm_compute; reflexivity|] ].

Lemma driver_run : run 64 8 24 1048576 4096 driver_calls after_free_p2.
Proof.
  unfold driver_calls, after_free_p2.
  apply run_deallocate;
    [|right; right; vm_compute; apply list_elem_of_further;
      apply list_elem_of_here].
  apply (run_allocate _ _ _ _ _ _ after_p2 1%nat); [|reflexivity].
  apply (run_allocate _ _ _ _ _ _ after_p1 1%nat); [|reflexivity].
  apply (run_allocate _ _ _ _ _ _ lp64_init 1%nat); [|reflexivity].
  apply run_start.
Qed.

Lemma driver_free_list : free_list_of after_free_p2 [4224; 4528].
Proof.
  split; [walk|]. intros H.
  repeat (apply elem_of_cons in H as [H | H]; [discriminate|]).
  inversion H.
Qed.

Lemma driver_blocks :
  blocks_of 1048576 4096 after_free_p2 [4096; 4224; 4448; 4528].
Proof. unfold blocks_of. walk. Qed.

(** The sizes and flags of the four blocks, in address order. *)
Example driver_layout :
  map (fun a => (size (load (pool after_free_p2) a),
                 is_free (load (pool after_free_p2) a)))
    [4096; 4224; 4448; 4528]
  = [(128, false); (224, true); (80, false); (1048144, true)].
Proof. reflexivity. Qed.

(** The sizes [my_malloc] looks for in the driver, and for a request at the
    top of [size_t], where [size + sizeof(BlockHeader)] wraps around. *)
Example needed_sizes :
  map (total_needed_size 64 8 24) [1; 8; 9; 50; 100; 200; 2 ^ 64 - 1]
  = [32; 32; 40; 80; 128; 224; 32].
Proof. reflexivity. Qed.

(** ** The worked example of the specification

    A pool of 64 bytes with headers of 4 bytes and an alignment of 4:
    allocate 10, allocate 20, free the first, allocate 16.  The last request
    needs 20 bytes, passes the freed block of 16 and takes the block of 24
    whole, since the 4 bytes that would remain cannot hold a block. *)
Example worked_example :
  let malloc := my_malloc 32 4 4 64 256 3 in
  let s0 := my_allocator_init 64 256 boot in
  exists s1 s2 s4,
    malloc s0 10 = Some (s1, 260)
    /\ malloc s1 20 = Some (s2, 276)
    /\ malloc (my_free 32 4 64 256 s2 260) 16 = Some (s4, 300)
    /\ map (fun a => (size (load (pool s4) a), is_free (load (pool s4) a)))
         [256; 272; 296]
       = [(16, true); (24, false); (24, false)]
    /\ blocks_of 64 256 s4 [256; 272; 296]
    /\ free_list_of s4 [256].
Proof.
  do 3 eexists. repeat split; try reflexivity.
  - unfold blocks_of. walk.
  - walk.
  - intros H. apply list_elem_of_singleton in H. discriminate.
Qed.

(** ** The theorems at work on the driver's run *)

Lemma coverage_invariant_witness :
  exists bs, blocks_of 1048576 4096 after_free_p2 bs /\ NoDup bs
    /\ total_size (pool after_free_p2) bs = 1048576.
Proof.
  destruct (coverage_invariant 64 8 24 1048576 4096 lp64_abi
              driver_calls after_free_p2 driver_run)
    as (bs & H1 & H2 & _ & H3).
  exists bs. auto.
Defined.

Lemma free_list_consistency_witness :
  exists bs fl, blocks_of 1048576 4096 after_free_p2 bs
    /\ free_list_of after_free_p2 fl /\ NoDup fl
    /\ (length fl <= length bs)%nat.
Proof.
  destruct (free_list_consistency 64 8 24 1048576 4096 lp64_abi
              driver_calls after_free_p2 driver_run)
    as (bs & fl & H1 & H2 & H3 & _ & _ & H4).
  exists bs, fl. auto.
Defined.

(** [my_malloc(300)] needs 328 bytes: the freed block of 224 bytes is passed
    and the last block, of 1048144 bytes, is split. *)
Lemma split_correctness_witness :
  exists s',
    my_malloc 64 8 24 1048576 4096 2 after_free_p2 300 = Some (s', 4552)
    /\ load (pool s') 4528 = mkBlockHeader 328 false NULL
    /\ load (pool s') 4856 = mkBlockHeader 1047816 true NULL
    /\ free_list_of s' [4224; 4856]
    /\ free_list_head s' = 4224
    /\ next_free (load (pool s') 4224) = 4856.
Proof.
  destruct (split_correctness 64 8 24 1048576 4096 lp64_abi
              driver_calls after_free_p2 [4224; 4528] [4224] 4528 [] 300 2
              driver_run driver_free_list)
    as (s' & bs1 & bs2 & H1 & _ & _ & H2 & H3 & H4 & H5 & H6 & _).
  - lia.
  - reflexivity.
  - intros x Hx. apply list_elem_of_singleton in Hx as ->. reflexivity.
  - vm_compute. discriminate.
  - simpl. lia.
  - exists s'. repeat split; try assumption.
    + apply (proj1 H4).
    + apply (proj2 H4).
    + apply H6. discriminate.
Defined.

(** [my_malloc(200)] needs 224 bytes: the freed block of 224 bytes is the
    first fit and is handed out whole. *)
Lemma no_split_consume_witness :
  exists s',
    my_malloc 64 8 24 1048576 4096 1 after_free_p2 200 = Some (s', 4248)
    /\ load (pool s') 4224 = mkBlockHeader 224 false NULL
    /\ blocks_of 1048576 4096 s' [4096; 4224; 4448; 4528]
    /\ free_list_of s' [4528]
    /\ free_list_head s' = 4528.
Proof.
  destruct (no_split_consume 64 8 24 1048576 4096 lp64_abi
              driver_calls after_free_p2 [4096; 4224; 4448; 4528]
              [4224; 4528] [] 4224 [4528] 200 1
              driver_run driver_blocks driver_free_list)
    as (s' & H1 & H2 & H3 & _ & H4 & H5 & _).
  - lia.
  - reflexivity.
  - intros x Hx. inversion Hx.
  - vm_compute. split; [discriminate | reflexivity].
  - simpl. lia.
  - exists s'. repeat split; try assumption; apply H4.
Defined.

Lemma first_fit_selection_witness :
  exists s',
    my_malloc 64 8 24 1048576 4096 2 after_free_p2 300 = Some (s', 4552)
    /\ is_free (load (pool s') 4528) = false.
Proof.
  destruct (first_fit_selection 64 8 24 1048576 4096 lp64_abi
              driver_calls after_free_p2 [4224; 4528] [4224] 4528 [] 300 2
              driver_run driver_free_list)
    as (s' & H1 & _ & H2).
  - lia.
  - reflexivity.
  - intros x Hx. apply list_elem_of_singleton in Hx as ->. reflexivity.
  - vm_compute. discriminate.
  - simpl. lia.
  - exists s'. auto.
Defined.

(** Freeing [p2] a second time. *)
Lemma rejected_free_no_mutation_witness :
  my_free 64 24 1048576 4096 after_free_p2 4248 = after_free_p2.
Proof.
  apply (rejected_free_no_mutation 64 24 1048576 4096 after_free_p2 4248).
  right. right. reflexivity.
Defined.

(** Before any call, [my_malloc(0)] returns [NULL] and the allocator is no
    longer the one it was: the pool holds its first header, the head of the
    free list points to it and the flag is set. *)
Lemma zero_size_initializes :
  exists s',
    my_malloc 64 8 24 1048576 4096 1 boot 0 = Some (s', NULL)
    /\ s' <> boot
    /\ free_list_head boot = NULL /\ free_list_head s' = 4096
    /\ load (pool boot) 4096 = zero_header
    /\ load (pool s') 4096 = mkBlockHeader 1048576 true NULL.
Proof.
  eexists. split; [reflexivity|]. repeat split. discriminate.
Qed.

Lemma zero_size_rejection_witness :
  my_malloc 64 8 24 1048576 4096 1 after_free_p2 0
  = Some (after_free_p2, NULL).
Proof.
  apply (zero_size_rejection 64 8 24 1048576 4096 after_free_p2 1).
  reflexivity.
Defined.


Lemma handle_aligned_interior_witness :
  4552 mod 8 = 0 /\ 4096 + 24 <= 4552 < 4096 + 1048576.
Proof.
  destruct (handle_aligned_interior 64 8 24 1048576 4096 lp64_abi
              driver_calls after_free_p2 2 300
              (split_block 64 after_free_p2 328 4528 4224) 4552
              driver_run)
    as (B & bs & _ & _ & _ & _ & H1 & H2).
  - reflexivity.
  - discriminate.
  - reflexivity.
  - split; [exact H1 | exact H2].
Defined.


(** ** The further properties on the driver's run *)

Lemma driver_handles : handles driver_calls = [4472; 4248; 4120].
Proof. reflexivity. Qed.

(** [my_free(p3)] on top of the driver's run. *)
Lemma free_pushes_on_head_witness :
  free_list_head (my_free 64 24 1048576 4096 after_free_p2 4472) = 4448
  /\ free_list_of (my_free 64 24 1048576 4096 after_free_p2 4472)
       [4448; 4224; 4528].
Proof.
  destruct (free_pushes_on_head 64 8 24 1048576 4096 lp64_abi
              driver_calls after_free_p2 [4224; 4528] 4472
              driver_run driver_free_list) as (H1 & H2 & _).
  - rewrite driver_handles. apply list_elem_of_here.
  - discriminate.
  - reflexivity.
  - split; [exact H2 | exact H1].
Defined.

(** After [my_free(p3)], [my_malloc(50)] gives [p3] back. *)
Lemma free_then_malloc_reuses_witness :
  exists s',
    my_malloc 64 8 24 1048576 4096 1
      (my_free 64 24 1048576 4096 after_free_p2 4472) 50
    = Some (s', 4472).
Proof.
  apply (free_then_malloc_reuses 64 8 24 1048576 4096 lp64_abi
           driver_calls after_free_p2 4472 50 1 driver_run).
  - rewrite driver_handles. apply list_elem_of_here.
  - discriminate.
  - reflexivity.
  - lia.
  - vm_compute. discriminate.
  - lia.
Defined.

Lemma malloc_free_malloc_witness :
  exists s2,
    my_malloc 64 8 24 1048576 4096 2
      (my_free 64 24 1048576 4096
         (split_block 64 after_free_p2 328 4528 4224) 4552) 300
    = Some (s2, 4552).
Proof.
  apply (malloc_free_malloc 64 8 24 1048576 4096 lp64_abi
           driver_calls after_free_p2 300 2 _ 4552 driver_run).
  - reflexivity.
  - discriminate.
Defined.

Lemma malloc_block_holds_request_witness :
  300 + 24
  <= size (load (pool (split_block 64 after_free_p2 328 4528 4224)) 4528)
  /\ 4552 + 300 <= 4096 + 1048576.
Proof.
  destruct (malloc_block_holds_request 64 8 24 1048576 4096 lp64_abi
              driver_calls after_free_p2 2 300
              (split_block 64 after_free_p2 328 4528 4224) 4552 driver_run)
    as (_ & H1 & _ & H2).
  - reflexivity.
  - discriminate.
  - lia.
  - vm_compute. discriminate.
  - split; [exact H1 | exact H2].
Defined.

(** A request for [SIZE_MAX] bytes is served from the freed block of 224
    bytes. *)
Lemma huge_request_is_served_witness :
  exists s',
    my_malloc 64 8 24 1048576 4096 1 after_free_p2 (2 ^ 64 - 1)
    = Some (s', 4248).
Proof.
  destruct (huge_request_is_served 64 8 24 1048576 4096 lp64_abi
              driver_calls after_free_p2 (2 ^ 64 - 1) 1 driver_run)
    as (_ & s' & H).
  - discriminate.
  - lia.
  - lia.
  - exists s'. exact H.
Defined.

Lemma block_layout_invariant_witness :
  exists bs, blocks_of 1048576 4096 after_free_p2 bs
    /\ forall a, a ∈ bs -> 32 <= size (load (pool after_free_p2) a).
Proof.
  destruct (block_layout_invariant 64 8 24 1048576 4096 lp64_abi
              driver_calls after_free_p2 driver_run) as (bs & H1 & H2).
  exists bs. split; [exact H1|]. intros a Ha. apply (H2 a Ha).
Defined.

(** [my_malloc(300)] does not touch the block of [p1]. *)
Lemma malloc_keeps_allocated_witness :
  load (pool (split_block 64 after_free_p2 328 4528 4224)) 4096
  = load (pool after_free_p2) 4096
  /\ 4552 <> 4120.
Proof.
  apply (malloc_keeps_allocated 64 8 24 1048576 4096 lp64_abi
           driver_calls after_free_p2 2 300
           (split_block 64 after_free_p2 328 4528 4224) 4552 4120
           driver_run).
  - reflexivity.
  - rewrite driver_handles. do 2 apply list_elem_of_further.
    apply list_elem_of_here.
  - discriminate.
  - reflexivity.
Defined.

(** After the driver's run [p3] and [p1] are in use. *)
Lemma no_double_allocation_witness :
  live driver_calls = [4472; 4120] /\ NoDup (live driver_calls).
Proof.
  split; [reflexivity|].
  apply (no_double_allocation 64 8 24 1048576 4096 lp64_abi
           driver_calls after_free_p2 driver_run).
Defined.

Lemma dump_reports_layout_witness :
  exists bs fl,
    blocks_of 1048576 4096 after_free_p2 bs /\ free_list_of after_free_p2 fl
    /\ forall fuel, (length bs < fuel)%nat ->
         exists lines,
           dump_memory_map 64 8 24 1048576 4096 fuel after_free_p2
           = Some (after_free_p2, lines).
Proof.
  destruct (dump_reports_layout 64 8 24 1048576 4096 lp64_abi
              driver_calls after_free_p2 driver_run)
    as (bs & fl & H1 & H2 & H3).
  - vm_compute. reflexivity.
  - exists bs, fl. split; [exact H1|]. split; [exact H2|].
    intros fuel Hf. eexists. apply H3. exact Hf.
Defined.

(** What [dump_memory_map] prints after the driver's run. *)
Example driver_dump :
  dump_memory_map 64 8 24 1048576 4096 5 after_free_p2
  = Some (after_free_p2,
          [BlockLine 4096 128 false None;
           BlockLine 4224 224 true (Some 4528);
           BlockLine 4448 80 false None;
           BlockLine 4528 1048144 true (Some 0);
           TotalLine 1048576;
           FreeLine 0 4224 224 4528;
           FreeLine 1 4528 1048144 0]).
Proof. reflexivity. Qed.

(** A pool of 64 bytes with headers and alignment of 4 bytes, as in the
    worked example, and a free list tied into a loop on its only node. *)
Lemma toy_abi : abi_ok 32 4 4 64 256.
Proof.
  constructor; try lia.
  - exists 2. split; [lia | reflexivity].
  - split; [lia | reflexivity].
Qed.

Lemma dump_free_list_terminates_witness :
  exists lines count,
    dump_free_list 32 4 4 64 256 14
      {[ 256 := mkBlockHeader 64 true 256 ]} 256 0
    = Some (lines, count)
    /\ count <= free_list_bound 32 4 4 64 + 1.
Proof.
  apply (dump_free_list_terminates 32 4 4 64 256 toy_abi).
  vm_compute. discriminate.
Defined.

(** On that loop the walk prints fourteen nodes and gives up. *)
Example cyclic_dump :
  exists lines,
    dump_free_list 32 4 4 64 256 14
      {[ 256 := mkBlockHeader 64 true 256 ]} 256 0
    = Some (lines ++ [TooLongError], 14)
    /\ lines = map (fun i => FreeLine i 256 64 256)
                [0; 1; 2; 3; 4; 5; 6; 7; 8; 9; 10; 11; 12; 13].
Proof. eexists. split; [|reflexivity]. reflexivity. Qed.

(** * The ready queue of [process_scheduler_simulation.c]

    [ReadyQueue] is a circular buffer of pointers into the global array
    [all_processes].  A pointer to a PCB is the index of the PCB in that
    array, [None] for [NULL]; the C [int]s are integers, and the theorems
    are about queues whose fields are within the bounds the code keeps them
    in. *)

Module Scheduler.

Definition MAX_PROCESSES : Z := 10.
Definition TIME_QUANTUM : Z := 3.
Definition MAX_QUEUE_SIZE : Z := MAX_PROCESSES.

Inductive ProcessState :=
| STATE_NEW
| STATE_READY
| STATE_RUNNING
| STATE_TERMINATED.

(** [process_name] is the C string held in the array of 50 characters. *)
Record PCB := mkPCB {
  process_id : Z;
  process_name : list Ascii.ascii;
  state : ProcessState;
  burst_time : Z;
  remaining_time : Z;
  arrival_time : Z
}.

Record ReadyQueue := mkReadyQueue {
  buffer : list (option nat);
  front : Z;
  rear : Z;
  count : Z
}.

Definition set_state (st : ProcessState) (p : PCB) : PCB :=
  mkPCB (process_id p) (process_name p) st (burst_time p)
    (remaining_time p) (arrival_time p).

(** [init_queue] leaves the buffer as it finds it. *)
Definition init_queue (q : ReadyQueue) : ReadyQueue :=
  mkReadyQueue (buffer q) 0 (-1) 0.

Definition is_queue_empty (q : ReadyQueue) : bool := count q =? 0.

Definition is_queue_full (q : ReadyQueue) : bool :=
  count q =? MAX_QUEUE_SIZE.

(** [enqueue(q, process)]; the second component is [all_processes], where
    [process->state] lives. *)
Definition enqueue (q : ReadyQueue) (procs : list PCB) (process : nat)
  : ReadyQueue * list PCB :=
  if is_queue_full q then (q, procs)
  else
    let rear' := Z.rem (rear q + 1) MAX_QUEUE_SIZE in
    (mkReadyQueue (<[Z.to_nat rear' := Some process]> (buffer q))
       (front q) rear' (count q + 1),
     alter (set_state STATE_READY) process procs).

Definition dequeue (q : ReadyQueue) : option nat * ReadyQueue :=
  if is_queue_empty q then (None, q)
  else
    (default None (buffer q !! Z.to_nat (front q)),
     mkReadyQueue (buffer q) (Z.rem (front q + 1) MAX_QUEUE_SIZE) (rear q)
       (count q - 1)).

(** The pointers waiting in the queue, the next one to leave first. *)
Definition contents (q : ReadyQueue) : list (option nat) :=
  map (fun i => default None
                  (buffer q !! Z.to_nat ((front q + Z.of_nat i) mod 10)))
    (seq 0 (Z.to_nat (count q))).

(** The bounds the operations keep the fields in. *)
Record queue_ok (q : ReadyQueue) : Prop := {
  ok_buffer : length (buffer q) = 10%nat;
  ok_front : 0 <= front q < 10;
  ok_rear : -1 <= rear q < 10;
  ok_count : 0 <= count q <= 10;
  ok_wrap : (rear q + 1) mod 10 = (front q + count q) mod 10
}.

Definition enqueue_all (q : ReadyQueue) (procs : list PCB) (ps : list nat)
  : ReadyQueue * list PCB :=
  fold_left (fun st p => enqueue (fst st) (snd st) p) ps (q, procs).

Fixpoint dequeue_n (n : nat) (q : ReadyQueue)
  : list (option nat) * ReadyQueue :=
  match n with
  | O => ([], q)
  | S n' =>
      let '(p, q') := dequeue q in
      let '(ps, q'') := dequeue_n n' q' in (p :: ps, q'')
  end.

Lemma init_queue_ok q :
  length (buffer q) = 10%nat ->
  queue_ok (init_queue q) /\ contents (init_queue q) = [].
Proof.
  intros H. split; [|reflexivity]. constructor; simpl; try lia; auto.
Qed.

Lemma contents_length q : 0 <= count q -> Z.of_nat (length (contents q)) = count q.
Proof.
  intros H. unfold contents. rewrite length_map, length_seq. lia.
Qed.

(** X14. [enqueue] on a queue within its bounds keeps it within them.  With
    room left the process goes to the back of the queue and its state
    becomes READY; on a full queue nothing happens at all: the process is
    dropped and its state is not touched. *)
Theorem enqueue_back q procs p :
  queue_ok q ->
  queue_ok (fst (enqueue q procs p))
  /\ contents (fst (enqueue q procs p))
     = (if count q <? 10 then contents q ++ [Some p] else contents q)
  /\ snd (enqueue q procs p)
     = (if count q <? 10 then alter (set_state STATE_READY) p procs
        else procs).
Proof.
  intros [Hb Hf Hr Hc Hw]. unfold enqueue, is_queue_full, MAX_QUEUE_SIZE,
    MAX_PROCESSES.
  destruct (Z.eqb_spec (count q) 10) as [E | E].
  { simpl. rewrite E. simpl. split; [constructor; auto|]. auto. }
  destruct (Z.ltb_spec (count q) 10); [|lia]. simpl.
  assert (Hrem : Z.rem (rear q + 1) 10 = (front q + count q) mod 10).
  { rewrite Z.rem_mod_nonneg by lia. exact Hw. }
  rewrite Hrem.
  pose proof (Z.mod_pos_bound (front q + count q) 10 ltac:(lia)) as Hm.
  split; [|split; [|reflexivity]].
  - constructor; simpl; try lia.
    + rewrite length_insert. exact Hb.
    + rewrite Z.add_mod_idemp_l by lia. f_equal. lia.
  - unfold contents. simpl.
    replace (Z.to_nat (count q + 1)) with (S (Z.to_nat (count q))) by lia.
    rewrite seq_S, map_app. simpl. f_equal.
    + apply map_ext_in. intros i Hi. apply in_seq in Hi.
      rewrite list_lookup_insert_ne; [reflexivity|].
      intros Heq. apply Z2Nat.inj in Heq;
        try (apply Z.mod_pos_bound; lia).
      assert (Hi' : 0 <= Z.of_nat i < count q) by lia.
      revert Heq Hi'. generalize (Z.of_nat i). intros i' Heq Hi'.
      Z.div_mod_to_equations. lia.
    + rewrite Z2Nat.id by lia.
      rewrite list_lookup_insert_eq by lia. reflexivity.
Qed.

(** X15. [dequeue] on a queue within its bounds keeps it within them.  It
    returns the pointer at the front and removes it; on an empty queue it
    returns [NULL] and the queue is unchanged. *)
Theorem dequeue_front q :
  queue_ok q ->
  queue_ok (snd (dequeue q))
  /\ match contents q with
     | [] => dequeue q = (None, q)
     | p :: rest =>
         fst (dequeue q) = p /\ contents (snd (dequeue q)) = rest
     end.
Proof.
  intros [Hb Hf Hr Hc Hw].
  unfold dequeue, is_queue_empty, MAX_QUEUE_SIZE, MAX_PROCESSES.
  destruct (Z.eqb_spec (count q) 0) as [E | E].
  { simpl. split; [constructor; auto|].
    unfold contents. rewrite E. reflexivity. }
  simpl.
  assert (Hrem : Z.rem (front q + 1) 10 = (front q + 1) mod 10)
    by (apply Z.rem_mod_nonneg; lia).
  rewrite Hrem.
  pose proof (Z.mod_pos_bound (front q + 1) 10 ltac:(lia)) as Hm.
  split.
  - constructor; simpl; try lia; auto.
    rewrite Hw, Z.add_mod_idemp_l by lia. f_equal. lia.
  - unfold contents. simpl.
    replace (Z.to_nat (count q)) with (S (Z.to_nat (count q - 1))) by lia.
    cbn [seq map]. split.
    + rewrite Z.add_0_r, Z.mod_small by lia. reflexivity.
    + rewrite <- seq_shift, map_map. apply map_ext. intros i.
      do 3 f_equal. rewrite Z.add_mod_idemp_l by lia. f_equal. lia.
Qed.

Lemma enqueue_all_contents ps : forall q procs,
  queue_ok q -> count q + Z.of_nat (length ps) <= 10 ->
  queue_ok (fst (enqueue_all q procs ps))
  /\ contents (fst (enqueue_all q procs ps)) = contents q ++ map Some ps.
Proof.
  induction ps as [|p ps IH]; intros q procs Hq Hlen.
  - simpl. rewrite app_nil_r. auto.
  - change (length (p :: ps)) with (S (length ps)) in Hlen.
    destruct (enqueue_back q procs p Hq) as (Hq' & Hc' & _).
    pose proof (ok_count _ Hq) as Hc.
    destruct (Z.ltb_spec (count q) 10); [|lia].
    unfold enqueue_all in *. cbn [fold_left fst snd].
    destruct (enqueue q procs p) as [q' procs'] eqn:E. cbn [fst snd] in *.
    destruct (IH q' procs' Hq') as (Hok & Hcont).
    { pose proof (contents_length q' (proj1 (ok_count _ Hq'))) as Hl'.
      pose proof (contents_length q (proj1 Hc)) as Hl.
      rewrite Hc', length_app in Hl'. simpl in Hl'. lia. }
    split; [exact Hok|]. rewrite Hcont, Hc', <- app_assoc. reflexivity.
Qed.

Lemma dequeue_n_contents n : forall q,
  queue_ok q -> n = length (contents q) ->
  fst (dequeue_n n q) = contents q
  /\ count (snd (dequeue_n n q)) = 0
  /\ queue_ok (snd (dequeue_n n q)).
Proof.
  induction n as [|n IH]; intros q Hq Hn.
  - simpl. pose proof (contents_length q (proj1 (ok_count _ Hq))) as Hl.
    destruct (contents q); [|discriminate]. simpl in Hl.
    split; [reflexivity|]. split; [lia | exact Hq].
  - destruct (dequeue_front q Hq) as (Hq' & Hd).
    destruct (contents q) as [|p rest] eqn:Ec; [discriminate|].
    destruct Hd as [Hp Hrest]. cbn [dequeue_n].
    destruct (dequeue q) as [p' q'] eqn:E. simpl in *. subst p'.
    destruct (IH q' Hq') as (H1 & H2 & H3).
    { rewrite Hrest. simpl in Hn. lia. }
    destruct (dequeue_n n q') as [ps q''] eqn:E'. simpl in *.
    rewrite H1, Hrest. auto.
Qed.

(** X16. First in, first out: after [init_queue], enqueuing up to ten
    processes and then dequeuing as many returns them in the order they
    were enqueued and leaves the queue empty. *)
Theorem queue_fifo q0 procs ps :
  length (buffer q0) = 10%nat -> (length ps <= 10)%nat ->
  fst (dequeue_n (length ps)
         (fst (enqueue_all (init_queue q0) procs ps)))
  = map Some ps
  /\ is_queue_empty
       (snd (dequeue_n (length ps)
               (fst (enqueue_all (init_queue q0) procs ps)))) = true.
Proof.
  intros Hb Hlen. destruct (init_queue_ok q0 Hb) as [Hq Hc].
  destruct (enqueue_all_contents ps (init_queue q0) procs Hq) as (Hq' & Hc').
  { simpl. lia. }
  rewrite Hc in Hc'. simpl in Hc'.
  destruct (dequeue_n_contents (length ps) _ Hq') as (H1 & H2 & _).
  { rewrite Hc', length_map. reflexivity. }
  rewrite H1, Hc'. split; [reflexivity|].
  unfold is_queue_empty. rewrite H2. reflexivity.
Qed.

(** X17. Once ten processes wait, [enqueue] drops every further one: the
    queue, and the state of the process that was to be enqueued, stay as
    they are. *)
Theorem enqueue_overflow_dropped q0 procs ps p :
  length (buffer q0) = 10%nat -> length ps = 10%nat ->
  enqueue (fst (enqueue_all (init_queue q0) procs ps))
    (snd (enqueue_all (init_queue q0) procs ps)) p
  = enqueue_all (init_queue q0) procs ps.
Proof.
  intros Hb Hlen. destruct (init_queue_ok q0 Hb) as [Hq Hc].
  destruct (enqueue_all_contents ps (init_queue q0) procs Hq) as (Hq' & Hc').
  { simpl. lia. }
  pose proof (contents_length _ (proj1 (ok_count _ Hq'))) as Hl.
  rewrite Hc', Hc, length_app, length_map in Hl. simpl in Hl.
  unfold enqueue, is_queue_full, MAX_QUEUE_SIZE, MAX_PROCESSES.
  destruct (Z.eqb_spec (count (fst (enqueue_all (init_queue q0) procs ps)))
              10); [|lia].
  destruct (enqueue_all (init_queue q0) procs ps). reflexivity.
Qed.

(** ** [create_process] *)

(** The globals [all_processes], [num_processes] and [global_time]. *)
Record system := mkSystem {
  all_processes : list PCB;
  num_processes : Z;
  global_time : Z
}.

(** [name] is the C string passed in; [strncpy] keeps its first 49
    characters and the code ends them with a zero. *)
Definition create_process (sys : system) (id : Z) (name : list Ascii.ascii)
    (burst arrival_time_sim : Z) : option nat * system :=
  if MAX_PROCESSES <=? num_processes sys then (None, sys)
  else
    let i := Z.to_nat (num_processes sys) in
    (Some i,
     mkSystem
       (<[i := mkPCB id (take 49 name) STATE_NEW burst burst
                arrival_time_sim]> (all_processes sys))
       (num_processes sys + 1) (global_time sys)).

Record system_ok (sys : system) : Prop := {
  ok_table : length (all_processes sys) = 10%nat;
  ok_num : 0 <= num_processes sys <= 10
}.

(** X18. [create_process] keeps [num_processes] between 0 and 10 and the
    table at ten entries.  While there is room it fills the first unused
    entry (state NEW, remaining time equal to the burst time, a name of at
    most 49 characters), returns a pointer to it and leaves the other entries
    alone; once ten processes exist it returns [NULL] and changes
    nothing. *)
Theorem create_process_bounds sys id name burst arrival :
  system_ok sys ->
  let i := Z.to_nat (num_processes sys) in
  let r := create_process sys id name burst arrival in
  system_ok (snd r)
  /\ (num_processes sys < 10 ->
      fst r = Some i
      /\ num_processes (snd r) = num_processes sys + 1
      /\ all_processes (snd r) !! i
         = Some (mkPCB id (take 49 name) STATE_NEW burst burst arrival)
      /\ (length (take 49 name) <= 49)%nat
      /\ forall j, j <> i ->
           all_processes (snd r) !! j = all_processes sys !! j)
  /\ (num_processes sys = 10 -> r = (None, sys)).
Proof.
  intros [Ht Hn] i r. subst r. unfold create_process, MAX_PROCESSES.
  destruct (Z.leb_spec 10 (num_processes sys)) as [Hfull | Hroom]; simpl.
  - split; [constructor; assumption|]. split; [lia | reflexivity].
  - split; [|split; [|lia]].
    + constructor; simpl; [rewrite length_insert; exact Ht | lia].
    + intros _. split; [reflexivity|]. split; [reflexivity|].
      split; [apply list_lookup_insert_eq; unfold i; lia|].
      split; [rewrite length_take; lia|].
      intros j Hj. apply list_lookup_insert_ne. auto.
Qed.

End Scheduler.
